(** * google-ad-placement: a plugin that adapts the AdSense Ad Placement API
      to the AdLad plugin interface

    The development embeds [src/mod.js] (and the earlier revision of the same
    file, module [Legacy]) as an event-driven state machine.  The closure
    variables of [googleAdPlacementPlugin] are fields of [State]; every
    synchronous block of JavaScript between two suspension points is one
    computation of the monad [M]; the host, the browser and the vendor SDK
    are the environment, which drives the machine through [Event]s. *)

From Stdlib Require Import ZArith QArith Qround Qminmax String List Bool Lia Lqa.
From stdpp Require Import base option list.
Import ListNotations.

Close Scope Q_scope.
Local Open Scope string_scope.
Local Open Scope list_scope.

(** ** Data model *)

(** [PlacementInfo], the object the vendor hands to [adBreakDone]. *)
Record PlacementInfo := mkPlacementInfo {
  breakType : string;
  breakName : string;
  breakFormat : string;
  breakStatus : string
}.

(** [ShowFullScreenAdResult] of AdLad; [errorReason] is [null] or a string. *)
Record ShowFullScreenAdResult := mkResult {
  didShowAd : bool;
  errorReason : option string
}.

(** [AdLadPluginInitializeContext]: the flag the plugin reads.  The three
    setters of the context write the host fields of [State]. *)
Record Ctx := mkCtx { useTestAds : bool }.

(** The script element built by [initialize]. *)
Record ScriptTag := mkScriptTag {
  tag_async : bool;
  tag_adClient : string;
  tag_adFrequencyHint : option string;
  tag_adbreakTest : option string;
  tag_crossOrigin : string;
  tag_src : string
}.

Abbreviation PromiseId := nat.

(** The function [showAdFn] which the vendor passes to [beforeReward]. *)
Abbreviation ShowAdFn := nat.

(** Elements of [window.adsbygoogle].  The callbacks of a request pushed by
    the plugin are closures over the plugin's variables; what distinguishes
    two requests of one kind is the promise that [adBreakDone] resolves. *)
Inductive Command :=
| AdBreakReward (done : PromiseId)
    (* {type:"reward", ...beforeAfter, beforeReward, adDismissed, adViewed, adBreakDone} *)
| AdBreakPause (done : PromiseId)
    (* {type:"pause", ...beforeAfter, adBreakDone} *)
| AdConfig (preloadAdBreaks : string)
| Foreign (payload : string).
    (* an element some other script put in the queue *)

(** Calls that leave the plugin, in the order they are made. *)
Inductive Effect :=
| ESetNeedsPause (b : bool)
| ESetNeedsMute (b : bool)
| ESetCanShowRewardedAd (b : bool)
| ECreateElement
| EAppendChild (tag : ScriptTag)
| EPush (c : Command)
| EShowAdFn (f : ShowAdFn)
| EResolve (p : PromiseId) (info : PlacementInfo)
| ESetTimeout (delay : Q).

(** Where the async function [initialize] stands. *)
Inductive InitTask :=
| InitIdle
| InitAwaitLoad          (* suspended at [await promise] *)
| InitRejected           (* the script reported an error *)
| InitFulfilled.

(** Where the async function [rewardedLoop] stands. *)
Inductive LoopTask :=
| LoopNotStarted
| LoopAwait (p : PromiseId) (lastCallTime : Q)   (* [await promise] of the request *)
| LoopSleeping (wake : Q).                       (* [await] of the [setTimeout] promise *)

Record State := mkState {
  (* closure variables of googleAdPlacementPlugin *)
  initializeCalled : bool;
  initializeContext : option Ctx;
  showRewardedAdFn : option ShowAdFn;
  resolveRewardedAdFn : option PromiseId;
  (* browser *)
  adsbygoogle : list Command;
  head : list ScriptTag;
  promises : list (option PlacementInfo);
  clock : Q;
  (* host: the value last passed to each setter of the context *)
  needsPause : option bool;
  needsMute : option bool;
  canShowRewardedAd : option bool;
  (* suspended async functions *)
  initTask : InitTask;
  loopTask : LoopTask;
  (* effects so far, the latest first, each with the clock reading *)
  log : list (Q * Effect)
}.

(** The effects in the order they happened. *)
Definition trace (st : State) : list Effect := rev (map snd (log st)).

(** ** The result translator *)

(** [placementInfoToAdLadResult] of mod.js: the two locals start as
    [false] and [null], one branch of the chain assigns one of them. *)
Definition placementInfoToAdLadResult (placementInfo : PlacementInfo)
  : ShowFullScreenAdResult :=
  let didShowAd := false in
  let errorReason : option string := None in
  let status := breakStatus placementInfo in
  let '(didShowAd, errorReason) :=
    if (status =? "viewed")%string then (true, errorReason)
    else if (status =? "frequencyCapped")%string then (didShowAd, Some "time-constraint")
    else if (status =? "dismissed")%string then (didShowAd, Some "user-dismissed")
    else if (status =? "notReady")%string || (status =? "timeout")%string
            || (status =? "noAdPreloaded")%string
         then (didShowAd, Some "no-ad-available")
    else (didShowAd, Some "unknown") in
  mkResult didShowAd errorReason.

(** The table of section 4.2 of the specification, row by row: the statuses
    of a row and the result the row gives. *)
Definition translator_table : list (list string * ShowFullScreenAdResult) :=
  [ (["viewed"], mkResult true None);
    (["frequencyCapped"], mkResult false (Some "time-constraint"));
    (["dismissed"], mkResult false (Some "user-dismissed"));
    (["notReady"; "timeout"; "noAdPreloaded"], mkResult false (Some "no-ad-available")) ].

(** The last row: any other value. *)
Definition translator_default : ShowFullScreenAdResult :=
  mkResult false (Some "unknown").

Definition table_result (status : string) : ShowFullScreenAdResult :=
  match List.find (fun row => existsb (String.eqb status) (fst row)) translator_table with
  | Some row => snd row
  | None => translator_default
  end.

(** ** Field updates *)

Definition set_initializeCalled (v : bool) (st : State) : State :=
  mkState v (initializeContext st) (showRewardedAdFn st) (resolveRewardedAdFn st)
    (adsbygoogle st) (head st) (promises st) (clock st)
    (needsPause st) (needsMute st) (canShowRewardedAd st)
    (initTask st) (loopTask st) (log st).

Definition set_initializeContext (v : option Ctx) (st : State) : State :=
  mkState (initializeCalled st) v (showRewardedAdFn st) (resolveRewardedAdFn st)
    (adsbygoogle st) (head st) (promises st) (clock st)
    (needsPause st) (needsMute st) (canShowRewardedAd st)
    (initTask st) (loopTask st) (log st).

Definition set_showRewardedAdFn (v : option ShowAdFn) (st : State) : State :=
  mkState (initializeCalled st) (initializeContext st) v (resolveRewardedAdFn st)
    (adsbygoogle st) (head st) (promises st) (clock st)
    (needsPause st) (needsMute st) (canShowRewardedAd st)
    (initTask st) (loopTask st) (log st).

Definition set_resolveRewardedAdFn (v : option PromiseId) (st : State) : State :=
  mkState (initializeCalled st) (initializeContext st) (showRewardedAdFn st) v
    (adsbygoogle st) (head st) (promises st) (clock st)
    (needsPause st) (needsMute st) (canShowRewardedAd st)
    (initTask st) (loopTask st) (log st).

Definition set_adsbygoogle (v : list Command) (st : State) : State :=
  mkState (initializeCalled st) (initializeContext st) (showRewardedAdFn st)
    (resolveRewardedAdFn st)
    v (head st) (promises st) (clock st)
    (needsPause st) (needsMute st) (canShowRewardedAd st)
    (initTask st) (loopTask st) (log st).

Definition set_head (v : list ScriptTag) (st : State) : State :=
  mkState (initializeCalled st) (initializeContext st) (showRewardedAdFn st)
    (resolveRewardedAdFn st)
    (adsbygoogle st) v (promises st) (clock st)
    (needsPause st) (needsMute st) (canShowRewardedAd st)
    (initTask st) (loopTask st) (log st).

Definition set_promises (v : list (option PlacementInfo)) (st : State) : State :=
  mkState (initializeCalled st) (initializeContext st) (showRewardedAdFn st)
    (resolveRewardedAdFn st)
    (adsbygoogle st) (head st) v (clock st)
    (needsPause st) (needsMute st) (canShowRewardedAd st)
    (initTask st) (loopTask st) (log st).

Definition set_clock (v : Q) (st : State) : State :=
  mkState (initializeCalled st) (initializeContext st) (showRewardedAdFn st)
    (resolveRewardedAdFn st)
    (adsbygoogle st) (head st) (promises st) v
    (needsPause st) (needsMute st) (canShowRewardedAd st)
    (initTask st) (loopTask st) (log st).

Definition set_needsPause (v : option bool) (st : State) : State :=
  mkState (initializeCalled st) (initializeContext st) (showRewardedAdFn st)
    (resolveRewardedAdFn st)
    (adsbygoogle st) (head st) (promises st) (clock st)
    v (needsMute st) (canShowRewardedAd st)
    (initTask st) (loopTask st) (log st).

Definition set_needsMute (v : option bool) (st : State) : State :=
  mkState (initializeCalled st) (initializeContext st) (showRewardedAdFn st)
    (resolveRewardedAdFn st)
    (adsbygoogle st) (head st) (promises st) (clock st)
    (needsPause st) v (canShowRewardedAd st)
    (initTask st) (loopTask st) (log st).

Definition set_canShowRewardedAd (v : option bool) (st : State) : State :=
  mkState (initializeCalled st) (initializeContext st) (showRewardedAdFn st)
    (resolveRewardedAdFn st)
    (adsbygoogle st) (head st) (promises st) (clock st)
    (needsPause st) (needsMute st) v
    (initTask st) (loopTask st) (log st).

Definition set_initTask (v : InitTask) (st : State) : State :=
  mkState (initializeCalled st) (initializeContext st) (showRewardedAdFn st)
    (resolveRewardedAdFn st)
    (adsbygoogle st) (head st) (promises st) (clock st)
    (needsPause st) (needsMute st) (canShowRewardedAd st)
    v (loopTask st) (log st).

Definition set_loopTask (v : LoopTask) (st : State) : State :=
  mkState (initializeCalled st) (initializeContext st) (showRewardedAdFn st)
    (resolveRewardedAdFn st)
    (adsbygoogle st) (head st) (promises st) (clock st)
    (needsPause st) (needsMute st) (canShowRewardedAd st)
    (initTask st) v (log st).

Definition set_log (v : list (Q * Effect)) (st : State) : State :=
  mkState (initializeCalled st) (initializeContext st) (showRewardedAdFn st)
    (resolveRewardedAdFn st)
    (adsbygoogle st) (head st) (promises st) (clock st)
    (needsPause st) (needsMute st) (canShowRewardedAd st)
    (initTask st) (loopTask st) v.

(** ** The monad of one synchronous block

    A block runs to its end or throws; the state changes made before a
    [throw] stay. *)

Inductive Completion (A : Type) :=
| Normal (a : A)
| Throw (msg : string).
Arguments Normal {A} a.
Arguments Throw {A} msg.

Definition M (A : Type) : Type := State -> Completion A * State.

Definition ret {A} (a : A) : M A := fun st => (Normal a, st).

Definition bind {A B} (m : M A) (k : A -> M B) : M B :=
  fun st =>
    match m st with
    | (Normal a, st') => k a st'
    | (Throw msg, st') => (Throw msg, st')
    end.

Definition throw {A} (msg : string) : M A := fun st => (Throw msg, st).

Definition gets {A} (f : State -> A) : M A := fun st => (Normal (f st), st).

Definition modify (f : State -> State) : M unit := fun st => (Normal tt, f st).

Declare Scope js_scope.
Delimit Scope js_scope with js.
Notation "x <- m ;; k" := (bind m (fun x => k))
  (at level 100, m at next level, right associativity) : js_scope.
Notation "m ;; k" := (bind m (fun _ => k))
  (at level 100, right associativity) : js_scope.
Local Open Scope js_scope.

(** An effect is logged with the clock reading at which it is made. *)
Definition emit (e : Effect) : M unit :=
  modify (fun st => set_log ((clock st, e) :: log st) st).

(** *** Host and browser primitives *)

Definition setNeedsPause (b : bool) : M unit :=
  modify (set_needsPause (Some b)) ;; emit (ESetNeedsPause b).

Definition setNeedsMute (b : bool) : M unit :=
  modify (set_needsMute (Some b)) ;; emit (ESetNeedsMute b).

Definition setCanShowRewardedAd (b : bool) : M unit :=
  modify (set_canShowRewardedAd (Some b)) ;; emit (ESetCanShowRewardedAd b).

(** The test [x < y] on two readings. *)
Definition Qlt_bool (x y : Q) : bool := negb (Qle_bool y x).

(** [performance.now()]: a reading in milliseconds, with a fraction of a
    millisecond.  Readings and their arithmetic are exact rationals here. *)
Definition performance_now : M Q := gets clock.

(** [new Promise(...)]: a fresh, pending cell. *)
Definition newPromise : M PromiseId :=
  p <- gets (fun st => length (promises st)) ;;
  modify (fun st => set_promises (promises st ++ [None]) st) ;;
  ret p.

(** The [resolve] function of promise [p]: it settles a pending promise and
    does nothing to a settled one. *)
Definition resolve (p : PromiseId) (info : PlacementInfo) : M unit :=
  cell <- gets (fun st => promises st !! p) ;;
  match cell with
  | Some None =>
      modify (fun st => set_promises (<[p := Some info]> (promises st)) st) ;;
      emit (EResolve p info)
  | _ => ret tt
  end.

(** [window.adsbygoogle.push(options)] *)
Definition push (c : Command) : M unit :=
  modify (fun st => set_adsbygoogle (adsbygoogle st ++ [c]) st) ;;
  emit (EPush c).

(** ** The plugin *)

(** What a call delivers to its caller when the synchronous block ends. *)
Inductive Value :=
| VUndefined
| VPending
    (* the promise of [initialize], suspended at its [await] *)
| VResult (r : ShowFullScreenAdResult)
    (* a promise already fulfilled with [r] *)
| VAwaitTranslate (p : PromiseId).
    (* a promise fulfilled with [placementInfoToAdLadResult] of what [p] delivers *)

Definition REWARDED_LOOP_RETRY_TIMEOUT : Q := 1000.

Definition not_initialized : string := "Plugin is not initialized".

Definition initialized_twice : string :=
  "Google Ad Placement plugin is being initialized more than once".

Definition no_ad_available : ShowFullScreenAdResult :=
  mkResult false (Some "no-ad-available").

(** [function adBreak(options)] *)
Definition adBreak (options : Command) : M unit := push options.

(** [function adConfig(options)] *)
Definition adConfig (options : Command) : M unit := push options.

(** [beforeAfter.beforeAd] *)
Definition beforeAd : M unit :=
  ctx <- gets initializeContext ;;
  match ctx with
  | None => throw not_initialized
  | Some _ => setNeedsPause true ;; setNeedsMute true
  end.

(** [beforeAfter.afterAd] *)
Definition afterAd : M unit :=
  ctx <- gets initializeContext ;;
  match ctx with
  | None => throw not_initialized
  | Some _ => setNeedsMute false ;; setNeedsPause false
  end.

(** The head of the [while] body of [rewardedLoop]: the promise is made, its
    executor reads the clock into [lastCallTime] and pushes the request, and
    the function suspends at [await promise]. *)
Definition requestReward : M unit :=
  p <- newPromise ;;
  lastCallTime <- performance_now ;;
  adBreak (AdBreakReward p) ;;
  modify (set_loopTask (LoopAwait p lastCallTime)).

(** [rewardedLoop()] up to its first suspension. *)
Definition rewardedLoop : M unit :=
  ctx <- gets initializeContext ;;
  match ctx with
  | None => throw not_initialized
  | Some _ => requestReward
  end.

(** The [beforeReward(showAdFn)] callback of a reward request. *)
Definition beforeReward (showAdFn : ShowAdFn) : M unit :=
  modify (set_showRewardedAdFn (Some showAdFn)) ;;
  setCanShowRewardedAd true.

(** The closure stored in [showRewardedAdFn], over the vendor's [showAdFn];
    it returns the promise whose [resolve] it stored. *)
Definition callShowRewardedAdFn (showAdFn : ShowAdFn) : M PromiseId :=
  setCanShowRewardedAd false ;;
  emit (EShowAdFn showAdFn) ;;
  p <- newPromise ;;
  modify (set_resolveRewardedAdFn (Some p)) ;;
  ret p.

(** [setTimeout(..., timeLeft)] and the [await] of its promise.  The browser
    takes the delay as a whole number of milliseconds, cutting off the
    fraction of [timeLeft], and runs the callback no earlier than that many
    milliseconds after the call. *)
Definition sleep (timeLeft : Q) : M unit :=
  emit (ESetTimeout timeLeft) ;;
  now <- performance_now ;;
  modify (set_loopTask (LoopSleeping (now + inject_Z (Qfloor timeLeft)))).

(** [rewardedLoop] from [const result = await promise] to the next
    suspension. *)
Definition rewardedLoopResume (result : PlacementInfo) (lastCallTime : Q) : M unit :=
  r <- gets resolveRewardedAdFn ;;
  match r with
  | Some p => resolve p result
  | None => ret tt
  end ;;
  modify (set_resolveRewardedAdFn None) ;;
  modify (set_showRewardedAdFn None) ;;
  setCanShowRewardedAd false ;;
  now <- performance_now ;;
  let timePassed := (now - lastCallTime)%Q in
  let timeLeft := (REWARDED_LOOP_RETRY_TIMEOUT - timePassed)%Q in
  if Qlt_bool 0 timeLeft then sleep timeLeft else requestReward.

(** A call of an async function whose promise nobody awaits: a throw inside
    rejects that promise and does not reach the caller. *)
Definition spawn (m : M unit) : M unit :=
  fun st => (Normal tt, snd (m st)).

(** [plugin.showFullScreenAd()] up to its [await]. *)
Definition showFullScreenAd : M Value :=
  p <- newPromise ;;
  adBreak (AdBreakPause p) ;;
  ret (VAwaitTranslate p).

(** [plugin.showRewardedAd()] up to its [await]. *)
Definition showRewardedAd : M Value :=
  fn <- gets showRewardedAdFn ;;
  match fn with
  | None => ret (VResult no_ad_available)
  | Some f =>
      p <- callShowRewardedAdFn f ;;
      ret (VAwaitTranslate p)
  end.

Section Plugin.

(** The options of [googleAdPlacementPlugin]. *)
Context (publisherId : string) (adFrequencyHint : option string).

(** [window.adsbygoogle = window.adsbygoogle || []] and the initial values
    of the closure variables; [existing] is the queue found in the window,
    whose elements are not the plugin's, or [None] when the property is
    undefined (or another falsy value). *)
Definition googleAdPlacementPlugin (existing : option (list string)) : State :=
  {| initializeCalled := false;
     initializeContext := None;
     showRewardedAdFn := None;
     resolveRewardedAdFn := None;
     adsbygoogle := match existing with
                    | Some queue => map Foreign queue
                    | None => []
                    end;
     head := [];
     promises := [];
     clock := 0;
     needsPause := None;
     needsMute := None;
     canShowRewardedAd := None;
     initTask := InitIdle;
     loopTask := LoopNotStarted;
     log := [] |}.

(** The script element as [initialize] leaves it before [appendChild]; an
    empty [adFrequencyHint] is falsy and sets no attribute. *)
Definition scriptTag (ctx : Ctx) : ScriptTag :=
  {| tag_async := true;
     tag_adClient := publisherId;
     tag_adFrequencyHint :=
       match adFrequencyHint with
       | Some hint => if (hint =? "")%string then None else Some hint
       | None => None
       end;
     tag_adbreakTest := if useTestAds ctx then Some "on" else None;
     tag_crossOrigin := "anonymous";
     tag_src := "https://pagead2.googlesyndication.com/pagead/js/adsbygoogle.js?client="
                ++ publisherId |}.

(** [document.head.appendChild(scriptTag)] *)
Definition appendChild (tag : ScriptTag) : M unit :=
  modify (fun st => set_head (head st ++ [tag]) st) ;;
  emit (EAppendChild tag).

(** [plugin.initialize(ctx)] up to [await promise]. *)
Definition initialize (ctx : Ctx) : M Value :=
  called <- gets initializeCalled ;;
  if called : bool then throw initialized_twice
  else
    modify (set_initializeCalled true) ;;
    modify (set_initializeContext (Some ctx)) ;;
    setCanShowRewardedAd false ;;
    emit ECreateElement ;;
    appendChild (scriptTag ctx) ;;
    modify (set_initTask InitAwaitLoad) ;;
    ret VPending.

(** [initialize] after the script's [load] event. *)
Definition initializeResume : M unit :=
  adConfig (AdConfig "on") ;;
  spawn rewardedLoop ;;
  modify (set_initTask InitFulfilled).

(** ** The environment *)

Inductive Event :=
| HostInitialize (ctx : Ctx)          (* the host calls plugin.initialize(ctx) *)
| HostShowFullScreenAd                (* the host calls plugin.showFullScreenAd() *)
| HostShowRewardedAd                  (* the host calls plugin.showRewardedAd() *)
| ScriptLoad                          (* "load" of the script; initialize resumes *)
| ScriptError                         (* "error" of the script; initialize rejects *)
| VendorBeforeAd (i : nat)            (* the vendor calls a callback of element i *)
| VendorAfterAd (i : nat)
| VendorBeforeReward (i : nat) (showAdFn : ShowAdFn)
| VendorAdDismissed (i : nat)
| VendorAdViewed (i : nat)
| VendorAdBreakDone (i : nat) (info : PlacementInfo)
| LoopResume                          (* the loop resumes after [await promise] *)
| TimerFire                           (* the setTimeout callback; the loop resumes *)
| ClockAdvance (d : Q).               (* time passes *)

(** A callback ends with no value. *)
Definition callback (m : M unit) : M Value := m ;; ret VUndefined.

(** One event: [None] when the environment cannot produce it in this state
    (the vendor invokes only callbacks of queue element [i] that exist, a
    continuation runs only when what it awaits is settled, a timer does not
    fire early, the clock does not go back). *)
Definition step (e : Event) (st : State) : option (Completion Value * State) :=
  match e with
  | HostInitialize ctx => Some (initialize ctx st)
  | HostShowFullScreenAd => Some (showFullScreenAd st)
  | HostShowRewardedAd => Some (showRewardedAd st)
  | ScriptLoad =>
      match initTask st with
      | InitAwaitLoad => Some (callback initializeResume st)
      | _ => None
      end
  | ScriptError =>
      match initTask st with
      | InitAwaitLoad => Some (callback (modify (set_initTask InitRejected)) st)
      | _ => None
      end
  | VendorBeforeAd i =>
      match adsbygoogle st !! i with
      | Some (AdBreakReward _) | Some (AdBreakPause _) => Some (callback beforeAd st)
      | _ => None
      end
  | VendorAfterAd i =>
      match adsbygoogle st !! i with
      | Some (AdBreakReward _) | Some (AdBreakPause _) => Some (callback afterAd st)
      | _ => None
      end
  | VendorBeforeReward i showAdFn =>
      match adsbygoogle st !! i with
      | Some (AdBreakReward _) => Some (callback (beforeReward showAdFn) st)
      | _ => None
      end
  | VendorAdDismissed i | VendorAdViewed i =>
      match adsbygoogle st !! i with
      | Some (AdBreakReward _) => Some (callback (ret tt) st)
      | _ => None
      end
  | VendorAdBreakDone i info =>
      match adsbygoogle st !! i with
      | Some (AdBreakReward p) | Some (AdBreakPause p) => Some (callback (resolve p info) st)
      | _ => None
      end
  | LoopResume =>
      match loopTask st with
      | LoopAwait p lastCallTime =>
          match promises st !! p with
          | Some (Some result) => Some (callback (rewardedLoopResume result lastCallTime) st)
          | _ => None
          end
      | _ => None
      end
  | TimerFire =>
      match loopTask st with
      | LoopSleeping wake =>
          if Qle_bool wake (clock st) then Some (callback requestReward st) else None
      | _ => None
      end
  | ClockAdvance d =>
      if Qle_bool 0 d then Some (callback (modify (fun s => set_clock (clock s + d) s)) st)
      else None
  end.

(** A sequence of events; a throw goes to the caller of that event and the
    machine goes on. *)
Fixpoint run (events : list Event) (st : State) : option State :=
  match events with
  | [] => Some st
  | e :: rest =>
      match step e st with
      | Some (_, st') => run rest st'
      | None => None
      end
  end.

(** What the promise behind a returned value is fulfilled with in state
    [st], if it is settled by then. *)
Definition settled (st : State) (v : Value) : option ShowFullScreenAdResult :=
  match v with
  | VResult r => Some r
  | VAwaitTranslate p =>
      match promises st !! p with
      | Some (Some info) => Some (placementInfoToAdLadResult info)
      | _ => None
      end
  | _ => None
  end.

End Plugin.

(** ** The earlier revision of the plugin

    Its [initialize] has the same guard; it makes no call of
    [setCanShowRewardedAd], sets no test attribute and starts no loop. *)
Module Legacy.

(** The translation written inline in [showAdHelper], applied to the
    [googleResult] that the promise delivers. *)
Definition showAdHelper_result (googleResult : PlacementInfo)
  : ShowFullScreenAdResult :=
  let didShowAd := false in
  let errorReason : option string := None in
  let status := breakStatus googleResult in
  let '(didShowAd, errorReason) :=
    if (status =? "viewed")%string then (true, errorReason)
    else if (status =? "frequencyCapped")%string then (didShowAd, Some "time-constraint")
    else if (status =? "dismissed")%string then (didShowAd, Some "user-dismissed")
    else if (status =? "notReady")%string || (status =? "timeout")%string
            || (status =? "noAdPreloaded")%string
         then (didShowAd, Some "no-ad-available")
    else (didShowAd, Some "unknown") in
  mkResult didShowAd errorReason.

Section Plugin.

Context (publisherId : string) (adFrequencyHint : option string).

Definition scriptTag : ScriptTag :=
  {| tag_async := true;
     tag_adClient := publisherId;
     tag_adFrequencyHint :=
       match adFrequencyHint with
       | Some hint => if (hint =? "")%string then None else Some hint
       | None => None
       end;
     tag_adbreakTest := None;
     tag_crossOrigin := "anonymous";
     tag_src := "https://pagead2.googlesyndication.com/pagead/js/adsbygoogle.js?client="
                ++ publisherId |}.

(** [plugin.initialize(ctx)] up to [await promise]. *)
Definition initialize (ctx : Ctx) : M Value :=
  called <- gets initializeCalled ;;
  if called : bool then throw initialized_twice
  else
    modify (set_initializeCalled true) ;;
    modify (set_initializeContext (Some ctx)) ;;
    emit ECreateElement ;;
    modify (fun st => set_head (head st ++ [scriptTag]) st) ;;
    emit (EAppendChild scriptTag) ;;
    modify (set_initTask InitAwaitLoad) ;;
    ret VPending.

End Plugin.

End Legacy.

(** * Vocabulary of the properties *)

(** The statuses the table names. *)
Definition table_statuses : list string :=
  concat (map fst translator_table).

(** The commands pushed so far, the oldest first. *)
Fixpoint pushed (l : list (Q * Effect)) : list Command :=
  match l with
  | [] => []
  | (_, EPush c) :: l' => pushed l' ++ [c]
  | _ :: l' => pushed l'
  end.

(** The vendor publishes an offer by calling [beforeReward]. *)
Definition is_offer (e : Event) : bool :=
  match e with
  | VendorBeforeReward _ _ => true
  | _ => false
  end.

Definition no_offer (events : list Event) : Prop :=
  Forall (fun e => is_offer e = false) events.

(** The clock readings at which the loop pushed a reward request, the
    latest first. *)
Fixpoint reward_starts (l : list (Q * Effect)) : list Q :=
  match l with
  | [] => []
  | (t, EPush (AdBreakReward _)) :: l' => t :: reward_starts l'
  | _ :: l' => reward_starts l'
  end.


(** The same up to the fraction of a millisecond that a timer drops: each
    reading is more than the retry timeout less one millisecond after the
    one before it. *)
Fixpoint spaced_to_the_ms (starts : list Q) : Prop :=
  match starts with
  | later :: (earlier :: _) as rest =>
      (earlier + REWARDED_LOOP_RETRY_TIMEOUT - 1 < later)%Q /\ spaced_to_the_ms rest
  | _ => True
  end.



(** The promises that the [adBreakDone] callbacks of the queue resolve. *)
Fixpoint done_promises (queue : list Command) : list PromiseId :=
  match queue with
  | [] => []
  | AdBreakReward p :: rest => p :: done_promises rest
  | AdBreakPause p :: rest => p :: done_promises rest
  | _ :: rest => done_promises rest
  end.

(** Those of the reward requests. *)
Fixpoint reward_promises (queue : list Command) : list PromiseId :=
  match queue with
  | [] => []
  | AdBreakReward p :: rest => p :: reward_promises rest
  | _ :: rest => reward_promises rest
  end.

(** How often the flag was set to [true], and how often the vendor's show
    function was called. *)
Fixpoint count_offers (l : list (Q * Effect)) : nat :=
  match l with
  | [] => 0
  | (_, ESetCanShowRewardedAd true) :: l' => S (count_offers l')
  | _ :: l' => count_offers l'
  end.

Fixpoint count_shows (l : list (Q * Effect)) : nat :=
  match l with
  | [] => 0
  | (_, EShowAdFn _) :: l' => S (count_shows l')
  | _ :: l' => count_shows l'
  end.

(** *** Invariants of the reachable states *)

(** The life cycle: nothing is stored or started before [initialize], and
    the loop starts only when [initialize] resumes. *)
Definition Inv_life (st : State) : Prop :=
  (initializeCalled st = false ->
     initTask st = InitIdle /\ initializeContext st = None)
  /\ (initializeCalled st = true -> initializeContext st <> None)
  /\ (initTask st <> InitFulfilled -> loopTask st = LoopNotStarted).

(** The trigger function against the flag of the host and the pending
    resolver. *)
Definition Inv_offer (st : State) : Prop :=
  (loopTask st = LoopNotStarted ->
     reward_promises (adsbygoogle st) = []
     /\ showRewardedAdFn st = None
     /\ resolveRewardedAdFn st = None
     /\ canShowRewardedAd st <> Some true)
  /\ (showRewardedAdFn st <> None <->
      canShowRewardedAd st = Some true \/ resolveRewardedAdFn st <> None).

(** The promises: those of the queue are allocated and distinct, a reward
    request that is still pending is the one the loop awaits, and the stored
    resolver belongs to a pending promise which is none of the queue's. *)
Definition Inv_promise (st : State) : Prop :=
  Forall (fun p => p < length (promises st)) (done_promises (adsbygoogle st))
  /\ NoDup (done_promises (adsbygoogle st))
  /\ (forall p, In p (reward_promises (adsbygoogle st)) ->
               promises st !! p = Some None ->
               exists lastCallTime, loopTask st = LoopAwait p lastCallTime)
  /\ (forall r, resolveRewardedAdFn st = Some r ->
               promises st !! r = Some None
               /\ ~ In r (done_promises (adsbygoogle st))).

(** The clock reading of the latest reward request. *)
Definition last_start (st : State) : option Q :=
  match reward_starts (log st) with
  | t :: _ => Some t
  | [] => None
  end.

(** The requests of the loop are spaced to the millisecond, and the loop
    remembers the latest: while it awaits the request it holds its clock
    reading, while it sleeps the wake-up time is later than a retry timeout
    less one millisecond after it. *)
Definition Inv_time (st : State) : Prop :=
  spaced_to_the_ms (reward_starts (log st))
  /\ match loopTask st with
     | LoopNotStarted => last_start st = None
     | LoopAwait _ lastCallTime =>
         last_start st = Some lastCallTime /\ (lastCallTime <= clock st)%Q
     | LoopSleeping wake =>
         exists lastCallTime,
           last_start st = Some lastCallTime
           /\ (lastCallTime + REWARDED_LOOP_RETRY_TIMEOUT - 1 < wake)%Q
     end.


(** No step turns a settled promise into a pending one. *)
Definition stays_settled (cells cells' : list (option PlacementInfo)) : Prop :=
  forall q, q < length cells -> cells' !! q = Some None -> cells !! q = Some None.

Definition Inv (st : State) : Prop :=
  Inv_life st /\ Inv_offer st /\ Inv_promise st /\ Inv_time st.

Section Vocabulary.

Context (publisherId : string) (adFrequencyHint : option string).

(** A host that calls [showRewardedAd] only while the flag it was given is
    true. *)
Fixpoint host_respects_flag (events : list Event) (st : State) : Prop :=
  match events with
  | [] => True
  | e :: rest =>
      (e = HostShowRewardedAd -> canShowRewardedAd st = Some true)
      /\ match step publisherId adFrequencyHint e st with
         | Some (_, st') => host_respects_flag rest st'
         | None => True
         end
  end.

(** The uses which the guards of the plugin are about. *)
Inductive Misuse :=
| InitializeAgain (ctx : Ctx)
| BeforeAdUninitialized
| AfterAdUninitialized
| RewardedLoopUninitialized
| ShowRewardedAdUninitialized.

Definition misuse_in (m : Misuse) (st : State) : Prop :=
  match m with
  | InitializeAgain _ => initializeCalled st = true
  | _ => initializeContext st = None
  end.

Definition misuse_call (m : Misuse) : M Value :=
  match m with
  | InitializeAgain ctx => initialize publisherId adFrequencyHint ctx
  | BeforeAdUninitialized => callback beforeAd
  | AfterAdUninitialized => callback afterAd
  | RewardedLoopUninitialized => callback rewardedLoop
  | ShowRewardedAdUninitialized => showRewardedAd
  end.

Definition raised (c : Completion Value) : Prop :=
  exists msg, c = Throw msg.

End Vocabulary.

(** *** Scenarios *)

Definition demo_publisher : string := "ca-pub-0000000000000000".

Definition demo_ctx : Ctx := mkCtx false.

Definition demo_viewed : PlacementInfo :=
  mkPlacementInfo "reward" "" "reward" "viewed".

(** The plugin is initialized, the script loads, the loop pushes its first
    request (element 1 of the queue, after the [adConfig] command) and the
    vendor offers a rewarded ad with show function 7. *)
Definition demo_offer : list Event :=
  [HostInitialize demo_ctx; ScriptLoad; VendorBeforeReward 1 7].

(** The host then invokes the trigger. *)
Definition demo_triggered : list Event :=
  demo_offer ++ [HostShowRewardedAd].

(** 300 ms later the vendor reports the ad as viewed. *)
Definition demo_done : list Event :=
  demo_triggered ++ [ClockAdvance 300; VendorAdBreakDone 1 demo_viewed].

(** The request is over: the loop has resumed and sleeps for the 700 ms
    left. *)
Definition demo_closed : list Event :=
  demo_done ++ [LoopResume].

(** The loop resumes, sleeps for the 700 ms left and pushes its second
    request. *)
Definition demo_retry : list Event :=
  demo_done ++ [LoopResume; ClockAdvance 700; TimerFire].

(** The same with the report 300.5 ms after the push: the loop asks for a
    timer of 699.5 ms, which fires after 699 ms. *)
Definition demo_fraction : list Event :=
  demo_triggered
    ++ [ClockAdvance 300.5; VendorAdBreakDone 1 demo_viewed;
        LoopResume; ClockAdvance 699; TimerFire].

(** *** Further vocabulary *)

(** The requests among the commands: those with callbacks. *)
Definition is_ad_break (c : Command) : bool :=
  match c with
  | AdBreakReward _ | AdBreakPause _ => true
  | _ => false
  end.

(** The [preloadAdBreaks] values of the [adConfig] commands pushed so far. *)
Fixpoint configs (l : list (Q * Effect)) : list string :=
  match l with
  | [] => []
  | (_, EPush (AdConfig preloadAdBreaks)) :: l' => preloadAdBreaks :: configs l'
  | _ :: l' => configs l'
  end.

(** Every reward request was pushed after the one [adConfig] command. *)
Fixpoint rewards_after_config (l : list (Q * Effect)) : Prop :=
  match l with
  | [] => True
  | (_, EPush (AdBreakReward _)) :: l' => configs l' = ["on"] /\ rewards_after_config l'
  | _ :: l' => rewards_after_config l'
  end.

(** A pending promise that nothing can settle any more: no request of the
    queue resolves it and it is not the stored resolver. *)
Definition orphan (p : PromiseId) (st : State) : Prop :=
  promises st !! p = Some None
  /\ ~ In p (done_promises (adsbygoogle st))
  /\ resolveRewardedAdFn st <> Some p.

(** The events in which neither the host nor the vendor takes part, apart
    from the vendor's report of a request's end. *)
Definition loop_event (e : Event) : bool :=
  match e with
  | VendorAdBreakDone _ _ | LoopResume | TimerFire | ClockAdvance _ => true
  | _ => false
  end.

(** The promise which the [adBreakDone] callback of a command resolves. *)
Definition done_of (c : Command) : option PromiseId :=
  match c with
  | AdBreakReward p | AdBreakPause p => Some p
  | _ => None
  end.

Section MoreVocabulary.

Context (publisherId : string) (adFrequencyHint : option string).

(** What initialization has done so far: the script element in the
    document, the [adConfig] command, the first value of the rewarded-ad
    flag, and the request the loop awaits. *)
Definition Inv_setup (st : State) : Prop :=
  match initializeContext st with
  | None => head st = [] /\ initializeCalled st = false
  | Some ctx =>
      head st = [scriptTag publisherId adFrequencyHint ctx]
      /\ initializeCalled st = true
  end
  /\ (initializeCalled st = true -> canShowRewardedAd st <> None)
  /\ configs (log st) = match initTask st with InitFulfilled => ["on"] | _ => [] end
  /\ rewards_after_config (log st)
  /\ (forall p lastCallTime,
        loopTask st = LoopAwait p lastCallTime ->
        In p (reward_promises (adsbygoogle st))).

End MoreVocabulary.

(** ** The earlier revision as a machine

    [showAdHelper] and the two show functions built on it, with the
    callbacks [showAdHelper] puts on every request.  The state, the
    commands and the events are those of the later revision; this revision
    has no loop, so the events of the loop never happen. *)
Module LegacyMachine.

(** The [options] the two callers pass to [showAdHelper]. *)
Inductive Options :=
| PauseOptions      (* {type: "pause"} *)
| RewardOptions.    (* {type: "reward", beforeReward, adDismissed, adViewed} *)

(** [beforeAd] of [showAdHelper] *)
Definition beforeAd : M unit :=
  ctx <- gets initializeContext ;;
  match ctx with
  | None => throw not_initialized
  | Some _ => setNeedsMute true
  end.

(** [afterAd] of [showAdHelper] *)
Definition afterAd : M unit :=
  ctx <- gets initializeContext ;;
  match ctx with
  | None => throw not_initialized
  | Some _ => setNeedsMute false
  end.

(** [showAdHelper(options)] up to [await promise]; the promise it returns
    is fulfilled with [Legacy.showAdHelper_result] of what [p] delivers. *)
Definition showAdHelper (options : Options) : M Value :=
  p <- newPromise ;;
  adBreak (match options with
           | PauseOptions => AdBreakPause p
           | RewardOptions => AdBreakReward p
           end) ;;
  ret (VAwaitTranslate p).

(** [plugin.showFullScreenAd()] *)
Definition showFullScreenAd : M Value := showAdHelper PauseOptions.

(** [plugin.showRewardedAd()] *)
Definition showRewardedAd : M Value := showAdHelper RewardOptions.

(** The [beforeReward(showAdFn)] callback of [showRewardedAd]. *)
Definition beforeReward (showAdFn : ShowAdFn) : M unit :=
  emit (EShowAdFn showAdFn).

(** [initialize] after the script's [load] event. *)
Definition initializeResume : M unit :=
  adConfig (AdConfig "on") ;;
  modify (set_initTask InitFulfilled).

Definition settled (st : State) (v : Value) : option ShowFullScreenAdResult :=
  match v with
  | VResult r => Some r
  | VAwaitTranslate p =>
      match promises st !! p with
      | Some (Some googleResult) => Some (Legacy.showAdHelper_result googleResult)
      | _ => None
      end
  | _ => None
  end.

Section Plugin.

Context (publisherId : string) (adFrequencyHint : option string).

Definition step (e : Event) (st : State) : option (Completion Value * State) :=
  match e with
  | HostInitialize ctx => Some (Legacy.initialize publisherId adFrequencyHint ctx st)
  | HostShowFullScreenAd => Some (showFullScreenAd st)
  | HostShowRewardedAd => Some (showRewardedAd st)
  | ScriptLoad =>
      match initTask st with
      | InitAwaitLoad => Some (callback initializeResume st)
      | _ => None
      end
  | ScriptError =>
      match initTask st with
      | InitAwaitLoad => Some (callback (modify (set_initTask InitRejected)) st)
      | _ => None
      end
  | VendorBeforeAd i =>
      match adsbygoogle st !! i with
      | Some (AdBreakReward _) | Some (AdBreakPause _) => Some (callback beforeAd st)
      | _ => None
      end
  | VendorAfterAd i =>
      match adsbygoogle st !! i with
      | Some (AdBreakReward _) | Some (AdBreakPause _) => Some (callback afterAd st)
      | _ => None
      end
  | VendorBeforeReward i showAdFn =>
      match adsbygoogle st !! i with
      | Some (AdBreakReward _) => Some (callback (beforeReward showAdFn) st)
      | _ => None
      end
  | VendorAdDismissed i | VendorAdViewed i =>
      match adsbygoogle st !! i with
      | Some (AdBreakReward _) => Some (callback (ret tt) st)
      | _ => None
      end
  | VendorAdBreakDone i info =>
      match adsbygoogle st !! i with
      | Some (AdBreakReward p) | Some (AdBreakPause p) => Some (callback (resolve p info) st)
      | _ => None
      end
  | LoopResume | TimerFire => None
  | ClockAdvance d =>
      if Qle_bool 0 d then Some (callback (modify (fun s => set_clock (clock s + d) s)) st)
      else None
  end.

Fixpoint run (events : list Event) (st : State) : option State :=
  match events with
  | [] => Some st
  | e :: rest =>
      match step e st with
      | Some (_, st') => run rest st'
      | None => None
      end
  end.

End Plugin.

End LegacyMachine.

(** The calls this revision makes: it never asks for a pause, never sets
    the rewarded-ad flag and never sets a timer. *)
Definition legacy_effect (e : Effect) : bool :=
  match e with
  | ESetNeedsPause _ | ESetCanShowRewardedAd _ | ESetTimeout _ => false
  | _ => true
  end.

(** *** Further scenarios *)

(** After the offer the host also asks for a full-screen ad: element 2 of
    the queue, promise 1. *)
Definition demo_two_requests : list Event :=
  demo_offer ++ [HostShowFullScreenAd].

(** The script fails to load. *)
Definition demo_script_error : list Event :=
  [HostInitialize demo_ctx; ScriptError].

(** The earlier revision: two overlapping rewarded calls after
    initialization (elements 1 and 2 of the queue, promises 0 and 1). *)
Definition demo_legacy : list Event :=
  [HostInitialize demo_ctx; ScriptLoad; HostShowRewardedAd; HostShowRewardedAd;
   VendorBeforeReward 1 7; VendorBeforeAd 1].

(** * Properties *)

(** ** Proof automation for one step *)

Ltac unfold_blocks :=
  cbv [step callback initialize initializeResume showFullScreenAd showRewardedAd
       callShowRewardedAdFn beforeReward rewardedLoopResume rewardedLoop requestReward
       sleep spawn beforeAd afterAd adBreak adConfig push appendChild resolve newPromise
       performance_now setCanShowRewardedAd setNeedsMute setNeedsPause emit
       Legacy.initialize
       bind ret throw gets modify
       set_initializeCalled set_initializeContext set_showRewardedAdFn
       set_resolveRewardedAdFn set_adsbygoogle set_head set_promises set_clock
       set_needsPause set_needsMute set_canShowRewardedAd set_initTask set_loopTask
       set_log
       initializeCalled initializeContext showRewardedAdFn resolveRewardedAdFn
       adsbygoogle head promises clock needsPause needsMute canShowRewardedAd
       initTask loopTask log fst snd].

(** Case analysis on the innermost blocked [match] of [H]. *)
Ltac break_match H :=
  repeat match type of H with
  | context [match ?x with _ => _ end] =>
      lazymatch x with
      | context [match _ with _ => _ end] => fail
      | _ => idtac
      end;
      destruct x eqn:?; try discriminate H; cbv beta iota in H
  end.

(** From [H : step e st = Some (c, st')] to one goal per event and branch,
    with [st'] given field by field. *)
Ltac step_cases H :=
  match type of H with
  | step _ _ ?e ?st = Some _ =>
      destruct e; destruct st; revert H; unfold_blocks; intros H; break_match H;
      inversion H; subst; clear H
  end.

(** Arithmetic on clock readings stays folded under [simpl]. *)
#[local] Arguments Qfloor : simpl never.
#[local] Arguments Qplus : simpl never.
#[local] Arguments Qminus : simpl never.
#[local] Arguments Qopp : simpl never.
#[local] Arguments inject_Z : simpl never.
#[local] Arguments Qcompare : simpl never.
#[local] Arguments Qle_bool : simpl never.
#[local] Arguments Qeq_bool : simpl never.

Lemma Qlt_bool_true (x y : Q) : Qlt_bool x y = true <-> (x < y)%Q.
Proof.
  unfold Qlt_bool. rewrite negb_true_iff, <- not_true_iff_false, Qle_bool_iff.
  split; [apply Qnot_le_lt | apply Qlt_not_le].
Qed.

Lemma Qlt_bool_false (x y : Q) : Qlt_bool x y = false <-> (y <= x)%Q.
Proof. unfold Qlt_bool. rewrite negb_false_iff. apply Qle_bool_iff. Qed.

(** The tests on clock readings, as propositions. *)
Ltac time_tests :=
  repeat match goal with
  | H : Qle_bool _ _ = true |- _ => apply Qle_bool_iff in H
  | H : Qlt_bool _ _ = true |- _ => apply Qlt_bool_true in H
  | H : Qlt_bool _ _ = false |- _ => apply Qlt_bool_false in H
  end.

(** ** The result translator *)

Example translator_viewed :
  placementInfoToAdLadResult (mkPlacementInfo "reward" "" "reward" "viewed")
  = mkResult true None.
Proof. reflexivity. Qed.

Example translator_ignored breakType :
  placementInfoToAdLadResult (mkPlacementInfo breakType "" "interstitial" "ignored")
  = mkResult false (Some "unknown").
Proof. reflexivity. Qed.

Lemma table_result_default status :
  In status table_statuses \/ table_result status = translator_default.
Proof.
  unfold table_result, table_statuses. simpl.
  repeat match goal with
  | |- context [(status =? ?s)%string] =>
      destruct (String.eqb_spec status s); [subst; simpl; tauto | simpl]
  end.
  right. reflexivity.
Qed.

(** C1. The result translator of mod.js and the translation written inline
    in [showAdHelper] both give, for every PlacementInfo, the result the
    table of section 4.2 gives for its breakStatus: the six named statuses
    give the results of their rows and every other value gives
    [{didShowAd:false, errorReason:"unknown"}].  Both are total functions
    of the PlacementInfo alone: called inside a block, in any state, the
    translator completes normally with that result and leaves the state as
    it was. *)
Theorem C1_translator_matches_table :
  (forall info : PlacementInfo,
     placementInfoToAdLadResult info = table_result (breakStatus info)
     /\ Legacy.showAdHelper_result info = table_result (breakStatus info))
  /\ (forall (info : PlacementInfo) (st : State),
        ret (placementInfoToAdLadResult info) st
        = (Normal (table_result (breakStatus info)), st))
  /\ table_result "viewed" = mkResult true None
  /\ table_result "frequencyCapped" = mkResult false (Some "time-constraint")
  /\ table_result "dismissed" = mkResult false (Some "user-dismissed")
  /\ table_result "notReady" = mkResult false (Some "no-ad-available")
  /\ table_result "timeout" = mkResult false (Some "no-ad-available")
  /\ table_result "noAdPreloaded" = mkResult false (Some "no-ad-available")
  /\ (forall status : string,
        In status ["viewed"; "frequencyCapped"; "dismissed";
                   "notReady"; "timeout"; "noAdPreloaded"]
        \/ table_result status = mkResult false (Some "unknown")).
Proof.
  assert (Htable : forall info : PlacementInfo,
             placementInfoToAdLadResult info = table_result (breakStatus info)
             /\ Legacy.showAdHelper_result info = table_result (breakStatus info)).
  { intros [ty name format status].
    unfold placementInfoToAdLadResult, Legacy.showAdHelper_result, table_result.
    simpl.
    destruct (status =? "viewed")%string; simpl; [split; reflexivity |].
    destruct (status =? "frequencyCapped")%string; simpl; [split; reflexivity |].
    destruct (status =? "dismissed")%string; simpl; [split; reflexivity |].
    destruct (status =? "notReady")%string; simpl; [split; reflexivity |].
    destruct (status =? "timeout")%string; simpl; [split; reflexivity |].
    destruct (status =? "noAdPreloaded")%string; simpl; split; reflexivity. }
  split; [exact Htable |]. split.
  - intros info st. unfold ret. rewrite (proj1 (Htable info)). reflexivity.
  - repeat split; try reflexivity. apply table_result_default.
Qed.

Section Properties.

Context (publisherId : string) (adFrequencyHint : option string).

Local Abbreviation step := (step publisherId adFrequencyHint).
Local Abbreviation run := (run publisherId adFrequencyHint).
Local Abbreviation initialize := (initialize publisherId adFrequencyHint).
Local Abbreviation scriptTag := (scriptTag publisherId adFrequencyHint).

(** ** Runs *)

Lemma run_app events1 events2 st :
  run (events1 ++ events2) st =
  match run events1 st with
  | Some st1 => run events2 st1
  | None => None
  end.
Proof.
  revert st. induction events1 as [| e events1 IH]; intros st; simpl; [reflexivity |].
  destruct (step e st) as [[c st1] |]; [apply IH | reflexivity].
Qed.

(** A property kept by every step of a kind of events is kept by every run
    of such events. *)
Lemma run_preserves_on (Q : Event -> Prop) (P : State -> Prop) :
  (forall e st c st', Q e -> P st -> step e st = Some (c, st') -> P st') ->
  forall events st st',
    Forall Q events -> P st -> run events st = Some st' -> P st'.
Proof.
  intros Hstep events. induction events as [| e events IH]; intros st st' HQ HP Hrun.
  - simpl in Hrun. congruence.
  - simpl in Hrun. destruct (step e st) as [[c st1] |] eqn:He; [| discriminate].
    inversion HQ as [| ? ? Hq HQ']; subst.
    eapply IH; [exact HQ' | eapply Hstep; eassumption | exact Hrun].
Qed.

Lemma run_preserves (P : State -> Prop) :
  (forall e st c st', P st -> step e st = Some (c, st') -> P st') ->
  forall events st st', P st -> run events st = Some st' -> P st'.
Proof.
  intros Hstep events st st' HP Hrun.
  apply (run_preserves_on (fun _ => True) P) with (events := events) (st := st); auto.
  - intros; eauto.
  - clear. induction events; constructor; auto.
Qed.

(** ** The initialization guard *)

Lemma initialize_sets_guard ctx st c st' :
  initialize ctx st = (c, st') -> initializeCalled st' = true.
Proof.
  destruct st. unfold_blocks. intros H. break_match H; inversion H; reflexivity.
Qed.

Lemma initialize_guarded ctx st :
  initializeCalled st = true ->
  initialize ctx st = (Throw initialized_twice, st).
Proof.
  destruct st. unfold_blocks. intros H. simpl in H. rewrite H. reflexivity.
Qed.

Lemma step_initializeCalled e st c st' :
  initializeCalled st = true ->
  step e st = Some (c, st') -> initializeCalled st' = true.
Proof.
  intros Hc H. step_cases H; simpl in *; solve [assumption | reflexivity].
Qed.

(** C7. Once [initialize] has been called on a plugin instance, whatever
    happened in between, a further call throws and leaves the whole state
    as it was: no closure variable changes, no script element is created or
    appended, nothing is pushed to the vendor queue, no host setter is
    called.  The earlier revision has the same guard. *)
Theorem C7_second_initialize_throws
    (ctx1 ctx2 : Ctx) (events : list Event) (st0 st1 st : State)
    (c1 : Completion Value) :
  step (HostInitialize ctx1) st0 = Some (c1, st1) ->
  run events st1 = Some st ->
  step (HostInitialize ctx2) st = Some (Throw initialized_twice, st)
  /\ Legacy.initialize publisherId adFrequencyHint ctx2
       (snd (Legacy.initialize publisherId adFrequencyHint ctx1 st0))
     = (Throw initialized_twice,
        snd (Legacy.initialize publisherId adFrequencyHint ctx1 st0)).
Proof.
  intros H1 Hrun. split.
  - simpl in H1. inversion H1 as [H1'].
    apply initialize_sets_guard in H1'.
    assert (Hc : initializeCalled st = true).
    { eapply (run_preserves (fun s => initializeCalled s = true)); eauto.
      intros e s c s' Hs He. eapply step_initializeCalled; eauto. }
    simpl. f_equal. apply initialize_guarded. exact Hc.
  - destruct st0 as [called ? ? ? ? ? ? ? ? ? ? ? ? ?].
    destruct called; vm_compute; reflexivity.
Qed.

(** ** The vendor queue *)

Lemma step_queue (base : list Command) e st c st' :
  adsbygoogle st = base ++ pushed (log st) ->
  step e st = Some (c, st') ->
  adsbygoogle st' = base ++ pushed (log st').
Proof.
  intros Hq H. step_cases H; simpl in *; subst;
    rewrite ?app_assoc; reflexivity.
Qed.

(** C10. Construction keeps a queue found in the window as it is and makes
    an empty one otherwise.  [adBreak] and [adConfig] each put exactly their
    argument at the end of whatever queue there is, and after any run the
    queue is the one found at construction followed by the commands pushed,
    one per push and in that order: no element is removed, replaced or
    reordered, and no block of the plugin depends on the queue's content. *)
Theorem C10_queue_is_append_only
    (existing : option (list string)) (events : list Event) (st : State) :
  run events (googleAdPlacementPlugin existing) = Some st ->
  adsbygoogle (googleAdPlacementPlugin existing)
    = match existing with Some queue => map Foreign queue | None => [] end
  /\ adsbygoogle st
     = adsbygoogle (googleAdPlacementPlugin existing) ++ pushed (log st)
  /\ (forall options queue s,
        adBreak options (set_adsbygoogle queue s)
        = (Normal tt,
           set_adsbygoogle (queue ++ [options])
             (set_log ((clock s, EPush options) :: log s) s)))
  /\ (forall options queue s,
        adConfig options (set_adsbygoogle queue s)
        = (Normal tt,
           set_adsbygoogle (queue ++ [options])
             (set_log ((clock s, EPush options) :: log s) s))).
Proof.
  intros Hrun. split; [reflexivity |]. split; [| split; intros; reflexivity].
  eapply (run_preserves
            (fun s => adsbygoogle s
                      = adsbygoogle (googleAdPlacementPlugin existing) ++ pushed (log s)));
    [| | exact Hrun].
  - intros e s c s' Hs He. eapply step_queue; eauto.
  - simpl. rewrite app_nil_r. reflexivity.
Qed.

(** ** Offers *)

Lemma step_no_offer_fn e st c st' :
  is_offer e = false ->
  showRewardedAdFn st = None ->
  step e st = Some (c, st') -> showRewardedAdFn st' = None.
Proof.
  intros Hno Hfn H. step_cases H; simpl in *;
    solve [assumption | reflexivity | discriminate].
Qed.

Lemma step_no_offer_flag_false e st c st' :
  is_offer e = false ->
  canShowRewardedAd st = Some false ->
  step e st = Some (c, st') -> canShowRewardedAd st' = Some false.
Proof.
  intros Hno Hfn H. step_cases H; simpl in *;
    solve [assumption | reflexivity | discriminate].
Qed.

Lemma step_no_offer_flag e st c st' :
  is_offer e = false ->
  canShowRewardedAd st <> Some true ->
  step e st = Some (c, st') -> canShowRewardedAd st' <> Some true.
Proof.
  intros Hno Hfn H. step_cases H; simpl in *;
    solve [assumption | discriminate].
Qed.

Lemma showRewardedAd_without_trigger st :
  showRewardedAdFn st = None ->
  step HostShowRewardedAd st = Some (Normal (VResult no_ad_available), st).
Proof.
  destruct st. unfold_blocks. simpl. intros ->. reflexivity.
Qed.

(** When no trigger function is stored, [showRewardedAd] does not throw,
    changes nothing and returns
    [{didShowAd:false, errorReason:"no-ad-available"}] at once.  As long as
    the vendor never calls [beforeReward] afterwards, over any number of
    requests of the loop, no trigger function appears, [canShowRewardedAd]
    does not become true, and every call of [showRewardedAd] has that same
    result. *)
Lemma soft_failure_while_no_offer (st : State) :
  showRewardedAdFn st = None ->
  step HostShowRewardedAd st = Some (Normal (VResult no_ad_available), st)
  /\ no_ad_available = mkResult false (Some "no-ad-available")
  /\ forall events st',
       no_offer events -> run events st = Some st' ->
       showRewardedAdFn st' = None
       /\ (canShowRewardedAd st <> Some true -> canShowRewardedAd st' <> Some true)
       /\ step HostShowRewardedAd st'
          = Some (Normal (VResult no_ad_available), st').
Proof.
  intros Hfn. split; [apply showRewardedAd_without_trigger; exact Hfn |].
  split; [reflexivity |].
  intros events st' Hno Hrun.
  assert (Hfn' : showRewardedAdFn st' = None).
  { eapply (run_preserves_on (fun e => is_offer e = false)
              (fun s => showRewardedAdFn s = None)); eauto.
    intros; eapply step_no_offer_fn; eauto. }
  split; [exact Hfn' |]. split; [| apply showRewardedAd_without_trigger; exact Hfn'].
  intros Hflag.
  eapply (run_preserves_on (fun e => is_offer e = false)
            (fun s => canShowRewardedAd s <> Some true)); eauto.
  intros; eapply step_no_offer_flag; eauto.
Qed.

(** C9. The first [initialize] returns a pending promise, and before its
    suspension it has made exactly three calls, in this order:
    [setCanShowRewardedAd(false)], [createElement], [appendChild].  From
    then on the flag of the host is [false] until the vendor's first call of
    [beforeReward]. *)
Theorem C9_flag_false_from_initialize
    (ctx : Ctx) (st0 st1 st : State) (c : Completion Value) (events : list Event) :
  initializeCalled st0 = false ->
  step (HostInitialize ctx) st0 = Some (c, st1) ->
  no_offer events ->
  run events st1 = Some st ->
  c = Normal VPending
  /\ trace st1
     = trace st0 ++ [ESetCanShowRewardedAd false; ECreateElement;
                     EAppendChild (scriptTag ctx)]
  /\ initTask st1 = InitAwaitLoad
  /\ canShowRewardedAd st1 = Some false
  /\ canShowRewardedAd st = Some false.
Proof.
  intros Hc H1 Hno Hrun.
  assert (H1' : c = Normal VPending
                /\ trace st1 = trace st0 ++ [ESetCanShowRewardedAd false; ECreateElement;
                                              EAppendChild (scriptTag ctx)]
                /\ initTask st1 = InitAwaitLoad
                /\ canShowRewardedAd st1 = Some false).
  { destruct st0. simpl in Hc. subst. revert H1. unfold_blocks. intros H1.
    inversion H1; subst. unfold trace. simpl.
    rewrite <- !app_assoc. repeat split. }
  destruct H1' as (-> & Htr & Hinit & Hflag).
  repeat split; try assumption.
  eapply (run_preserves_on (fun e => is_offer e = false)
            (fun s => canShowRewardedAd s = Some false)); eauto.
  intros; eapply step_no_offer_flag_false; eauto.
Qed.

(** ** Invariants *)

Lemma reward_promises_app queue1 queue2 :
  reward_promises (queue1 ++ queue2) = reward_promises queue1 ++ reward_promises queue2.
Proof.
  induction queue1 as [| [p | p | s | s] queue1 IH]; simpl; congruence.
Qed.

Lemma done_promises_app queue1 queue2 :
  done_promises (queue1 ++ queue2) = done_promises queue1 ++ done_promises queue2.
Proof.
  induction queue1 as [| [p | p | s | s] queue1 IH]; simpl; congruence.
Qed.

Lemma reward_promises_lookup (queue : list Command) i p :
  queue !! i = Some (AdBreakReward p) -> In p (reward_promises queue).
Proof.
  revert i. induction queue as [| c queue IH]; intros [| i] H; simpl in *;
    try discriminate.
  - inversion H; subst. simpl. auto.
  - destruct c; simpl; eauto.
Qed.

Lemma reward_promises_done queue p :
  In p (reward_promises queue) -> In p (done_promises queue).
Proof.
  induction queue as [| [q | q | s | s] queue IH]; simpl; intuition.
Qed.

Lemma done_promises_lookup (queue : list Command) i p :
  queue !! i = Some (AdBreakReward p) \/ queue !! i = Some (AdBreakPause p) ->
  In p (done_promises queue).
Proof.
  revert i. induction queue as [| c queue IH]; intros [| i] H; simpl in *.
  - destruct H; discriminate.
  - destruct H; discriminate.
  - destruct H as [H | H]; inversion H; subst; simpl; auto.
  - destruct c; simpl; eauto.
Qed.

Lemma Inv_life_init existing : Inv_life (googleAdPlacementPlugin existing).
Proof. unfold Inv_life. simpl. repeat split; congruence. Qed.

Lemma Inv_life_step e st c st' :
  Inv_life st -> step e st = Some (c, st') -> Inv_life st'.
Proof.
  unfold Inv_life. intros (Ha & Hb & Hc) H.
  step_cases H; simpl in *;
    repeat split; intros; subst; simpl in *;
    try solve [congruence | apply Ha; assumption | apply Hc; assumption
              | intuition congruence ].
Qed.

Lemma reward_promises_foreign queue : reward_promises (map Foreign queue) = [].
Proof. induction queue; simpl; auto. Qed.

Lemma Inv_offer_init existing : Inv_offer (googleAdPlacementPlugin existing).
Proof.
  unfold Inv_offer. simpl. split.
  - intros _. repeat split; try congruence.
    destruct existing; [apply reward_promises_foreign | reflexivity].
  - split; [congruence | intros [H | H]; congruence].
Qed.

Lemma Inv_offer_step e st c st' :
  Inv_life st -> Inv_offer st -> step e st = Some (c, st') -> Inv_offer st'.
Proof.
  unfold Inv_life, Inv_offer. intros (La & Lb & Lc) (Ha & Hb) H.
  step_cases H; simpl in *;
    rewrite ?reward_promises_app in *; simpl in *; rewrite ?app_nil_r in *.
  all: try (split; [ assumption | assumption ]).
  all: try (split; [ intros; discriminate | ]).
  all: try solve [ split; [ intros HH; specialize (Ha HH); intuition congruence
                          | intuition congruence ] ].
  all: try solve [ intuition congruence ].
  (* [beforeReward]: the request is in the queue, so the loop has started *)
  match goal with Hq : _ !! _ = Some (AdBreakReward _) |- _ =>
    apply reward_promises_lookup in Hq
  end.
  split; [| intuition congruence].
  intros HH. destruct (Ha HH) as (Hnil & _).
  rewrite Hnil in *. contradiction.
Qed.

(** C2. In every reachable state the flag of the host is true only if a
    trigger function is stored, and a trigger function is stored exactly
    when the flag is true or the resolver of a display request is pending:
    the function stays stored, with the flag false, from the invocation of
    the trigger until the loop resumes after [adBreakDone]. *)
Theorem C2_trigger_function_and_flag
    (existing : option (list string)) (events : list Event) (st : State) :
  run events (googleAdPlacementPlugin existing) = Some st ->
  (canShowRewardedAd st = Some true -> showRewardedAdFn st <> None)
  /\ (showRewardedAdFn st <> None <->
      canShowRewardedAd st = Some true \/ resolveRewardedAdFn st <> None).
Proof.
  intros Hrun.
  assert (H : Inv_life st /\ Inv_offer st).
  { eapply (run_preserves (fun s => Inv_life s /\ Inv_offer s)); [| | exact Hrun].
    - intros e s c s' [Hl Ho] He. split.
      + eapply Inv_life_step; eauto.
      + eapply Inv_offer_step; eauto.
    - split; [apply Inv_life_init | apply Inv_offer_init]. }
  destruct H as [_ [_ Hiff]]. split; [| exact Hiff].
  intros Hflag. apply Hiff. left. exact Hflag.
Qed.

Lemma done_promises_foreign queue : done_promises (map Foreign queue) = [].
Proof. induction queue; simpl; auto. Qed.

Lemma Inv_promise_init existing : Inv_promise (googleAdPlacementPlugin existing).
Proof.
  unfold Inv_promise. simpl.
  assert (Hd : done_promises
                 match existing with Some queue => map Foreign queue | None => [] end = []).
  { destruct existing; [apply done_promises_foreign | reflexivity]. }
  assert (Hr : reward_promises
                 match existing with Some queue => map Foreign queue | None => [] end = []).
  { destruct existing; [apply reward_promises_foreign | reflexivity]. }
  rewrite Hd, Hr. repeat split; try constructor; try contradiction; try discriminate.
Qed.

(** A pending cell of the store with one more cell was pending before. *)
Lemma pending_after_alloc (cells : list (option PlacementInfo)) p :
  p < length cells -> (cells ++ [None]) !! p = Some None -> cells !! p = Some None.
Proof. intros Hlt H. rewrite lookup_app_l in H by exact Hlt. exact H. Qed.

Lemma pending_alloc_iff (cells : list (option PlacementInfo)) p :
  cells !! p = Some None -> (cells ++ [None]) !! p = Some None.
Proof.
  intros H. rewrite lookup_app_l; [exact H |]. eapply lookup_lt_Some; eauto.
Qed.

Lemma fresh_is_pending (cells : list (option PlacementInfo)) :
  (cells ++ [None]) !! length cells = Some None.
Proof. rewrite lookup_app_r by lia. rewrite Nat.sub_diag. reflexivity. Qed.

(** A cell still pending after a [resolve] is another cell, pending before. *)
Lemma pending_after_resolve (cells : list (option PlacementInfo)) p q info :
  <[p := Some info]> cells !! q = Some None -> cells !! q = Some None /\ q <> p.
Proof.
  intros H. destruct (Nat.eq_dec q p) as [-> | Hne].
  - exfalso. destruct (Nat.lt_ge_cases p (length cells)) as [Hlt | Hge].
    + rewrite list_lookup_insert_eq in H by exact Hlt. discriminate.
    + rewrite list_insert_ge in H by exact Hge.
      rewrite lookup_ge_None_2 in H by exact Hge. discriminate.
  - rewrite list_lookup_insert_ne in H by congruence. auto.
Qed.

Lemma pending_other_resolve (cells : list (option PlacementInfo)) p q info :
  q <> p -> cells !! q = Some None -> <[p := Some info]> cells !! q = Some None.
Proof. intros Hne H. rewrite list_lookup_insert_ne by congruence. exact H. Qed.

Lemma Forall_lt_weaken (l : list nat) n m :
  n <= m -> Forall (fun p => p < n) l -> Forall (fun p => p < m) l.
Proof.
  intros Hle H. eapply Forall_impl; [exact H |]. intros x Hx. simpl in Hx. lia.
Qed.

Lemma fresh_not_in (l : list nat) n : Forall (fun p => p < n) l -> ~ In n l.
Proof.
  intros H Hin. rewrite Forall_forall in H.
  apply list_elem_of_In in Hin. specialize (H _ Hin). lia.
Qed.

Lemma NoDup_snoc_fresh (l : list nat) n :
  Forall (fun p => p < n) l -> NoDup l -> NoDup (l ++ [n]).
Proof.
  intros Hlt Hnd. apply NoDup_app. split; [exact Hnd |]. split.
  - intros x Hx Hx'. apply list_elem_of_In in Hx'. simpl in Hx'.
    destruct Hx' as [<- | []]. apply list_elem_of_In in Hx.
    eapply fresh_not_in; eauto.
  - apply NoDup_singleton.
Qed.

Lemma stays_settled_refl cells : stays_settled cells cells.
Proof. intros q _ H. exact H. Qed.

Lemma stays_settled_alloc cells : stays_settled cells (cells ++ [None]).
Proof. intros q Hq H. apply pending_after_alloc; assumption. Qed.

Lemma stays_settled_resolve cells p info :
  stays_settled cells (<[p := Some info]> cells).
Proof. intros q Hq H. apply pending_after_resolve in H. tauto. Qed.

Lemma stays_settled_resolve_alloc cells p info :
  stays_settled cells (<[p := Some info]> cells ++ [None]).
Proof.
  intros q Hq H. rewrite lookup_app_l in H by (rewrite length_insert; exact Hq).
  apply pending_after_resolve in H. tauto.
Qed.

Lemma reward_promise_allocated queue (cells : list (option PlacementInfo)) q :
  Forall (fun p => p < length cells) (done_promises queue) ->
  In q (reward_promises queue) -> q < length cells.
Proof.
  intros Hlt Hin. rewrite Forall_forall in Hlt. apply Hlt.
  apply list_elem_of_In. apply reward_promises_done. exact Hin.
Qed.

(** The clause of [Inv_promise] on reward requests, for a request that was
    in the queue before the step. *)
Ltac old_reward_request Hlt Hrew Hlife :=
  match goal with
  | Hin : In ?q (reward_promises ?queue), Hpend : _ !! ?q = Some None |- _ =>
      let Hq := fresh "Hq" in
      let t0 := fresh "t0" in
      let Ht0 := fresh "Ht0" in
      pose proof (reward_promise_allocated _ _ _ Hlt Hin) as Hq;
      first [ apply (stays_settled_alloc _ _ Hq) in Hpend
            | apply (stays_settled_resolve_alloc _ _ _ _ Hq) in Hpend
            | apply (stays_settled_resolve _ _ _ _ Hq) in Hpend
            | idtac ];
      destruct (Hrew _ Hin Hpend) as [t0 Ht0];
      first [ solve [eauto]
            | discriminate Ht0
            | solve [inversion Ht0; subst; congruence]
            | solve [rewrite Hlife in Ht0 by discriminate; discriminate Ht0] ]
  end.

Lemma Inv_promise_step e st c st' :
  Inv_life st -> Inv_promise st -> step e st = Some (c, st') -> Inv_promise st'.
Proof.
  unfold Inv_life, Inv_promise. intros (_ & _ & Hlife) H0 H.
  step_cases H; simpl in *; try exact H0.
  all: destruct H0 as (Hlt & Hnd & Hrew & Hres).
  all: rewrite ?done_promises_app, ?reward_promises_app, ?length_app, ?length_insert;
       simpl; rewrite ?app_nil_r.
  all: repeat apply conj.
  all: try solve [exact Hlt | exact Hnd | exact Hrew | exact Hres].
  all: try solve [apply Forall_app; split;
                    [eapply Forall_lt_weaken; [| exact Hlt]; lia
                    | repeat constructor; lia]].
  all: try solve [eapply Forall_lt_weaken; [| exact Hlt]; lia].
  all: try solve [apply NoDup_snoc_fresh; assumption].
  all: try solve [intros r Hr; discriminate Hr].
  (* reward requests *)
  all: try solve [intros q Hin Hpend;
                  try (apply in_app_or in Hin;
                       destruct Hin as [Hin | [<- | []]]; [| eexists; reflexivity]);
                  old_reward_request Hlt Hrew Hlife].
  (* the stored resolver *)
  all: intros r Hr.
  all: try solve [inversion Hr; subst; split;
                    [apply fresh_is_pending | apply fresh_not_in; exact Hlt]].
  all: destruct (Hres r Hr) as [Hp Hnin].
  all: try solve [split;
                    [apply pending_alloc_iff; exact Hp
                    | intros Hin; apply in_app_or in Hin;
                      destruct Hin as [Hin | [<- | []]];
                      [exact (Hnin Hin) | apply lookup_lt_Some in Hp; lia]]].
  all: match goal with
       | Hq : _ !! _ = Some _ |- _ =>
           split; [| exact Hnin];
           apply pending_other_resolve; [| exact Hp];
           intros ->; apply Hnin; eapply done_promises_lookup; eauto
       end.
Qed.

Lemma floor_bounds (x : Q) :
  (inject_Z (Qfloor x) <= x)%Q /\ (x - 1 < inject_Z (Qfloor x))%Q.
Proof.
  split; [apply Qfloor_le |].
  pose proof (Qlt_floor x) as H. rewrite inject_Z_plus in H.
  change (inject_Z 1) with 1%Q in H. lra.
Qed.

Lemma Inv_time_init existing : Inv_time (googleAdPlacementPlugin existing).
Proof. unfold Inv_time, last_start. simpl. auto. Qed.

Lemma Inv_time_step e st c st' :
  Inv_life st -> Inv_time st -> step e st = Some (c, st') -> Inv_time st'.
Proof.
  unfold Inv_life, Inv_time, last_start. intros (_ & _ & Hlife) [Hsp Hlast] H.
  step_cases H; simpl in *; try (split; [exact Hsp | exact Hlast]).
  all: try rewrite Hlife in Hlast by discriminate.
  all: try match goal with
           | |- context [match ?task with LoopNotStarted => _ | _ => _ end] =>
               destruct task
           end.
  all: match goal with
       | Hs : spaced_to_the_ms (reward_starts ?l) |- _ =>
           remember (reward_starts l) as starts eqn:Hstarts in *;
           clear Hstarts; destruct starts as [| t earlier]; simpl in *
       end.
  all: repeat match goal with
       | H : _ /\ _ |- _ => destruct H
       | H : exists _, _ |- _ => destruct H
       | H : Some _ = Some _ |- _ => inversion H; subst; clear H
       | H : None = Some _ |- _ => discriminate H
       | H : Some _ = None |- _ => discriminate H
       end.
  all: time_tests.
  all: unfold REWARDED_LOOP_RETRY_TIMEOUT in *.
  all: repeat split; try assumption; try lra.
  all: eexists; split; [reflexivity |]; try lra.
  all: match goal with
       | |- context [Qfloor ?x] => destruct (floor_bounds x); lra
       end.
Qed.

Lemma Inv_init existing : Inv (googleAdPlacementPlugin existing).
Proof.
  split; [apply Inv_life_init |].
  split; [apply Inv_offer_init |].
  split; [apply Inv_promise_init | apply Inv_time_init].
Qed.

Lemma Inv_step e st c st' : Inv st -> step e st = Some (c, st') -> Inv st'.
Proof.
  intros (Hl & Ho & Hp & Ht) H.
  split; [eapply Inv_life_step; eauto |].
  split; [eapply Inv_offer_step; eauto |].
  split; [eapply Inv_promise_step; eauto | eapply Inv_time_step; eauto].
Qed.

Lemma reachable_Inv existing events st :
  run events (googleAdPlacementPlugin existing) = Some st -> Inv st.
Proof.
  intros Hrun. eapply (run_preserves Inv); [| apply Inv_init | exact Hrun].
  intros e s c s' Hs He. eapply Inv_step; eauto.
Qed.

(** ** No trigger available *)

(** C5. In a reachable state no trigger function is stored exactly when the
    flag of the host is not true and no invocation of the trigger awaits
    its result.  In such a state [showRewardedAd] does not throw, changes
    nothing and returns [{didShowAd:false, errorReason:"no-ad-available"}]
    at once; and as long as the vendor never calls [beforeReward]
    afterwards, over any number of requests of the loop, no trigger function
    appears, the flag does not become true, and every call of
    [showRewardedAd] has that same result. *)
Theorem C5_no_trigger_soft_failure
    (existing : option (list string)) (events : list Event) (st : State) :
  run events (googleAdPlacementPlugin existing) = Some st ->
  (showRewardedAdFn st = None
   <-> canShowRewardedAd st <> Some true /\ resolveRewardedAdFn st = None)
  /\ (canShowRewardedAd st <> Some true ->
      resolveRewardedAdFn st = None ->
      step HostShowRewardedAd st = Some (Normal (VResult no_ad_available), st)
      /\ no_ad_available = mkResult false (Some "no-ad-available")
      /\ forall events' st',
           no_offer events' -> run events' st = Some st' ->
           showRewardedAdFn st' = None
           /\ canShowRewardedAd st' <> Some true
           /\ step HostShowRewardedAd st'
              = Some (Normal (VResult no_ad_available), st')).
Proof.
  intros Hrun.
  destruct (reachable_Inv _ _ _ Hrun) as (_ & (_ & Hiff) & _).
  assert (Hnone : showRewardedAdFn st = None
                  <-> canShowRewardedAd st <> Some true /\ resolveRewardedAdFn st = None).
  { destruct (showRewardedAdFn st) as [f |], (canShowRewardedAd st) as [[|] |],
      (resolveRewardedAdFn st) as [r |]; split; intros H;
      repeat match goal with
      | Hx : _ /\ _ |- _ => destruct Hx
      | |- _ /\ _ => split
      end; try congruence; try discriminate;
      exfalso; (destruct Hiff as [H1 H2];
                first [ destruct (H1 ltac:(discriminate)); congruence
                      | apply H2; [first [left; reflexivity | right; discriminate]
                                  | reflexivity] ]). }
  split; [exact Hnone |].
  intros Hflag Hres.
  assert (Hfn : showRewardedAdFn st = None) by (apply Hnone; auto).
  destruct (soft_failure_while_no_offer st Hfn) as (Hcall & Hresult & Hwindow).
  split; [exact Hcall |]. split; [exact Hresult |].
  intros events' st' Hno Hrun'.
  destruct (Hwindow events' st' Hno Hrun') as (Hfn' & Hflag' & Hcall').
  auto.
Qed.

(** ** Completion of a request *)

(** C3. In a reachable state, let [adBreakDone] of a reward request fire
    for the first time with [info], and let the loop resume.  The hook runs
    and the loop resumes without a throw.  If a resolver is stored, its
    promise was pending and is now fulfilled with [info], so the
    [showRewardedAd] call that awaits it is fulfilled with the translation
    of [info], which is [{didShowAd:true, errorReason:null}] when breakStatus
    is "viewed".  In every case, the resolver and the trigger function are
    then cleared and [setCanShowRewardedAd(false)] is called, after the
    resolution. *)
Theorem C3_completion_resolves_and_closes
    (existing : option (list string)) (events : list Event) (st : State)
    (i : nat) (p : PromiseId) (info : PlacementInfo) :
  run events (googleAdPlacementPlugin existing) = Some st ->
  adsbygoogle st !! i = Some (AdBreakReward p) ->
  promises st !! p = Some None ->
  exists st1 st2,
    step (VendorAdBreakDone i info) st = Some (Normal VUndefined, st1)
    /\ step LoopResume st1 = Some (Normal VUndefined, st2)
    /\ (forall r, resolveRewardedAdFn st = Some r ->
          promises st !! r = Some None
          /\ promises st2 !! r = Some (Some info)
          /\ settled st2 (VAwaitTranslate r) = Some (placementInfoToAdLadResult info)
          /\ (breakStatus info = "viewed" ->
              settled st2 (VAwaitTranslate r) = Some (mkResult true None)))
    /\ resolveRewardedAdFn st2 = None
    /\ showRewardedAdFn st2 = None
    /\ canShowRewardedAd st2 = Some false
    /\ exists rest,
         trace st2
         = trace st ++ [EResolve p info]
             ++ match resolveRewardedAdFn st with
                | Some r => [EResolve r info]
                | None => []
                end
             ++ ESetCanShowRewardedAd false :: rest.
Proof.
  intros Hrun Hq Hp.
  destruct (reachable_Inv _ _ _ Hrun) as (_ & _ & (Hlt & Hnd & Hrew & Hres) & _).
  destruct (Hrew p (reward_promises_lookup _ _ _ Hq) Hp) as [t0 Ht0].
  assert (Hplt : p < length (promises st)) by (eapply lookup_lt_Some; eauto).
  destruct st as [called ctx fn res queue hd cells clk np nm flag it lt lg].
  simpl in *. subst lt.
  destruct res as [r |].
  - destruct (Hres r eq_refl) as [Hr Hnin].
    assert (Hne : r <> p).
    { intros ->. apply Hnin. eapply done_promises_lookup; eauto. }
    assert (Hrlt : r < length cells) by (eapply lookup_lt_Some; eauto).
    pose proof (pending_other_resolve _ _ _ info Hne Hr) as Hr1.
    destruct (Qlt_bool 0 (REWARDED_LOOP_RETRY_TIMEOUT - (clk - t0))) eqn:Hb.
    + do 2 eexists.
      split; [unfold_blocks; rewrite Hq, Hp; reflexivity |].
      split; [unfold_blocks; rewrite list_lookup_insert_eq by exact Hplt;
              rewrite Hr1, Hb; reflexivity |].
      simpl.
      assert (Hfin : <[r:=Some info]> (<[p:=Some info]> cells) !! r = Some (Some info)).
      { apply list_lookup_insert_eq. rewrite length_insert. exact Hrlt. }
      split.
      { intros r' Hr'. inversion Hr'; subst r'. split; [exact Hr |].
        split; [exact Hfin |].
        unfold settled; simpl. rewrite Hfin. split; [reflexivity |].
        intros Hv. unfold placementInfoToAdLadResult. rewrite Hv. reflexivity. }
      repeat split. unfold trace. simpl. eexists.
      rewrite <- !app_assoc. simpl. reflexivity.
    + do 2 eexists.
      split; [unfold_blocks; rewrite Hq, Hp; reflexivity |].
      split; [unfold_blocks; rewrite list_lookup_insert_eq by exact Hplt;
              rewrite Hr1, Hb; reflexivity |].
      simpl.
      assert (Hfin : (<[r:=Some info]> (<[p:=Some info]> cells) ++ [None]) !! r
                     = Some (Some info)).
      { rewrite lookup_app_l by (rewrite !length_insert; exact Hrlt).
        apply list_lookup_insert_eq. rewrite length_insert. exact Hrlt. }
      split.
      { intros r' Hr'. inversion Hr'; subst r'. split; [exact Hr |].
        split; [exact Hfin |].
        unfold settled; simpl. rewrite Hfin. split; [reflexivity |].
        intros Hv. unfold placementInfoToAdLadResult. rewrite Hv. reflexivity. }
      repeat split. unfold trace. simpl. eexists.
      rewrite <- !app_assoc. simpl. reflexivity.
  - destruct (Qlt_bool 0 (REWARDED_LOOP_RETRY_TIMEOUT - (clk - t0))) eqn:Hb.
    + do 2 eexists.
      split; [unfold_blocks; rewrite Hq, Hp; reflexivity |].
      split; [unfold_blocks; rewrite list_lookup_insert_eq by exact Hplt;
              rewrite Hb; reflexivity |].
      simpl. split; [intros r' Hr'; discriminate |].
      repeat split. unfold trace. simpl. eexists.
      rewrite <- !app_assoc. simpl. reflexivity.
    + do 2 eexists.
      split; [unfold_blocks; rewrite Hq, Hp; reflexivity |].
      split; [unfold_blocks; rewrite list_lookup_insert_eq by exact Hplt;
              rewrite Hb; reflexivity |].
      simpl. split; [intros r' Hr'; discriminate |].
      repeat split. unfold trace. simpl. eexists.
      rewrite <- !app_assoc. simpl. reflexivity.
Qed.

(** ** The retry timeout *)


(** *** A clock that shows whole milliseconds *)









(** ** One use of the trigger per offer *)

Lemma step_counts e st c st' :
  (e = HostShowRewardedAd -> canShowRewardedAd st = Some true) ->
  count_shows (log st) + (if canShowRewardedAd st is Some true then 1 else 0)
    <= count_offers (log st) ->
  step e st = Some (c, st') ->
  count_shows (log st') + (if canShowRewardedAd st' is Some true then 1 else 0)
    <= count_offers (log st').
Proof.
  intros Hgate Hle H.
  step_cases H; simpl in *;
    try (specialize (Hgate eq_refl); subst; simpl in *; lia);
    clear Hgate;
    repeat match goal with
    | Hx : context [match ?flag with Some _ => _ | None => _ end] |- _ =>
        destruct flag as [[|] |]
    end; simpl in *; lia.
Qed.

Lemma run_counts events st st' :
  host_respects_flag publisherId adFrequencyHint events st ->
  count_shows (log st) + (if canShowRewardedAd st is Some true then 1 else 0)
    <= count_offers (log st) ->
  run events st = Some st' ->
  count_shows (log st') + (if canShowRewardedAd st' is Some true then 1 else 0)
    <= count_offers (log st').
Proof.
  revert st. induction events as [| e events IH]; intros st Hgate Hle Hrun.
  - simpl in Hrun. inversion Hrun; subst. exact Hle.
  - simpl in Hrun, Hgate. destruct Hgate as [Hnow Hlater].
    destruct (step e st) as [[c st1] |] eqn:He; [| discriminate].
    eapply IH; [exact Hlater | | exact Hrun].
    eapply step_counts; eauto.
Qed.

(** C4. In every reachable state with a stored trigger function,
    [showRewardedAd] calls [setCanShowRewardedAd(false)] and only then the
    vendor's show function, in one synchronous block that ends with the flag
    false; the flag then stays false until the vendor calls [beforeReward]
    again.  Under a host that calls [showRewardedAd] only while the flag is
    true, the show function has therefore been called at most once per
    offer. *)
Theorem C4_trigger_closes_offer
    (existing : option (list string)) (events : list Event) (st : State)
    (f : ShowAdFn) :
  run events (googleAdPlacementPlugin existing) = Some st ->
  showRewardedAdFn st = Some f ->
  (exists st1,
     step HostShowRewardedAd st
     = Some (Normal (VAwaitTranslate (length (promises st))), st1)
     /\ trace st1 = trace st ++ [ESetCanShowRewardedAd false; EShowAdFn f]
     /\ canShowRewardedAd st1 = Some false
     /\ resolveRewardedAdFn st1 = Some (length (promises st))
     /\ forall events' st2,
          no_offer events' -> run events' st1 = Some st2 ->
          canShowRewardedAd st2 = Some false)
  /\ (host_respects_flag publisherId adFrequencyHint events
        (googleAdPlacementPlugin existing) ->
      count_shows (log st) <= count_offers (log st)
      /\ (canShowRewardedAd st = Some true ->
          count_shows (log st) < count_offers (log st))).
Proof.
  intros Hrun Hfn. split.
  - destruct st as [called ctx fn res queue hd cells clk np nm flag it lt lg].
    simpl in Hfn. subst fn. eexists.
    split; [unfold_blocks; reflexivity |].
    split; [unfold trace; simpl; rewrite <- app_assoc; reflexivity |].
    split; [reflexivity |]. split; [reflexivity |].
    intros events' st2 Hno Hrun'.
    eapply (run_preserves_on (fun e => is_offer e = false)
              (fun s => canShowRewardedAd s = Some false));
      [| exact Hno | | exact Hrun']; [| reflexivity].
    intros; eapply step_no_offer_flag_false; eauto.
  - intros Hgate.
    pose proof (run_counts _ _ _ Hgate (Nat.le_0_l _) Hrun) as Hle.
    split; [lia |]. intros Hflag. rewrite Hflag in Hle. lia.
Qed.

(** ** Misuse *)

Lemma uninitialized_no_trigger st :
  Inv st -> initializeContext st = None -> showRewardedAdFn st = None.
Proof.
  intros ((La & Lb & Lc) & (Ha & _) & _ & _) Hctx.
  destruct (initializeCalled st) eqn:Hcalled.
  - exfalso. exact (Lb eq_refl Hctx).
  - destruct (La eq_refl) as [Hidle _].
    assert (Hloop : loopTask st = LoopNotStarted).
    { apply Lc. rewrite Hidle. discriminate. }
    apply Ha in Hloop. tauto.
Qed.

(** C8. In every reachable state: a further [initialize] throws "Google Ad
    Placement plugin is being initialized more than once"; [beforeAd],
    [afterAd] and [rewardedLoop], invoked while no context is stored, throw
    "Plugin is not initialized"; each of them throws before any effect and
    leaves the state as it was.  [showRewardedAd], called before
    initialization, does not throw: it returns
    [{didShowAd:false, errorReason:"no-ad-available"}]. *)
Theorem C8_misuse_outcomes
    (existing : option (list string)) (events : list Event) (st : State)
    (m : Misuse) :
  run events (googleAdPlacementPlugin existing) = Some st ->
  misuse_in m st ->
  misuse_call publisherId adFrequencyHint m st
  = match m with
    | InitializeAgain _ => (Throw initialized_twice, st)
    | ShowRewardedAdUninitialized => (Normal (VResult no_ad_available), st)
    | _ => (Throw not_initialized, st)
    end.
Proof.
  intros Hrun Hm.
  pose proof (reachable_Inv _ _ _ Hrun) as HI.
  destruct m; simpl in Hm; simpl.
  - apply initialize_guarded. exact Hm.
  - destruct st. simpl in Hm. subst. reflexivity.
  - destruct st. simpl in Hm. subst. reflexivity.
  - destruct st. simpl in Hm. subst. reflexivity.
  - pose proof (uninitialized_no_trigger _ HI Hm) as Hfn.
    destruct st. simpl in Hfn. subst. reflexivity.
Qed.

End Properties.

(** * Concrete runs *)

(** C7, at a concrete input: initialize, script load, a further initialize. *)
Lemma C7_second_initialize_throws_witness :
  exists st1 st,
    step demo_publisher None (HostInitialize demo_ctx) (googleAdPlacementPlugin None)
    = Some (Normal VPending, st1)
    /\ run demo_publisher None [ScriptLoad; HostShowFullScreenAd] st1 = Some st
    /\ step demo_publisher None (HostInitialize (mkCtx true)) st
       = Some (Throw initialized_twice, st).
Proof.
  assert (H : exists st1 st,
             step demo_publisher None (HostInitialize demo_ctx)
               (googleAdPlacementPlugin None) = Some (Normal VPending, st1)
             /\ run demo_publisher None [ScriptLoad; HostShowFullScreenAd] st1 = Some st).
  { do 2 eexists. split; [vm_compute; reflexivity |]. vm_compute; reflexivity. }
  destruct H as (st1 & st & H1 & H2). exists st1, st.
  split; [exact H1 |]. split; [exact H2 |].
  exact (proj1 (C7_second_initialize_throws demo_publisher None demo_ctx (mkCtx true)
                  [ScriptLoad; HostShowFullScreenAd]
                  (googleAdPlacementPlugin None) st1 st (Normal VPending) H1 H2)).
Defined.

(** C10, at a concrete input: a queue with one foreign element. *)
Lemma C10_queue_is_append_only_witness :
  exists st,
    run demo_publisher None [HostInitialize demo_ctx; ScriptLoad; HostShowFullScreenAd]
      (googleAdPlacementPlugin (Some ["other"])) = Some st
    /\ adsbygoogle st
       = adsbygoogle (googleAdPlacementPlugin (Some ["other"])) ++ pushed (log st).
Proof.
  assert (H : exists st,
             run demo_publisher None
               [HostInitialize demo_ctx; ScriptLoad; HostShowFullScreenAd]
               (googleAdPlacementPlugin (Some ["other"])) = Some st)
    by (eexists; vm_compute; reflexivity).
  destruct H as [st H]. exists st. split; [exact H |].
  exact (proj1 (proj2 (C10_queue_is_append_only demo_publisher None (Some ["other"])
                         [HostInitialize demo_ctx; ScriptLoad; HostShowFullScreenAd]
                         st H))).
Defined.

(** C5, at a concrete input: after the request of the scenario is over,
    the flag is false, nothing is stored and [showRewardedAd] fails
    softly. *)
Lemma C5_no_trigger_soft_failure_witness :
  exists st,
    run demo_publisher None demo_closed (googleAdPlacementPlugin None) = Some st
    /\ canShowRewardedAd st = Some false
    /\ resolveRewardedAdFn st = None
    /\ step demo_publisher None HostShowRewardedAd st
       = Some (Normal (VResult no_ad_available), st).
Proof.
  assert (H : exists st,
             run demo_publisher None demo_closed (googleAdPlacementPlugin None) = Some st
             /\ canShowRewardedAd st = Some false
             /\ resolveRewardedAdFn st = None).
  { eexists. split; [vm_compute; reflexivity |]. split; vm_compute; reflexivity. }
  destruct H as (st & Hrun & Hflag & Hres). exists st.
  split; [exact Hrun |]. split; [exact Hflag |]. split; [exact Hres |].
  assert (Hnot : canShowRewardedAd st <> Some true) by (rewrite Hflag; discriminate).
  exact (proj1 (proj2 (C5_no_trigger_soft_failure demo_publisher None None demo_closed
                         st Hrun) Hnot Hres)).
Defined.

(** C5 as the specification states it fails between the invocation of the
    trigger and the end of the request: the flag of the host is false, the
    trigger function is still stored, and a call of [showRewardedAd] calls
    the show function of the vendor again and awaits its result. *)
Lemma C5_counterexample :
  ~ (forall existing events st,
       run demo_publisher None events (googleAdPlacementPlugin existing) = Some st ->
       canShowRewardedAd st = Some false ->
       exists st',
         step demo_publisher None HostShowRewardedAd st
         = Some (Normal (VResult no_ad_available), st')).
Proof.
  intros H.
  assert (Hrun : exists st c st1,
             run demo_publisher None demo_triggered (googleAdPlacementPlugin None) = Some st
             /\ canShowRewardedAd st = Some false
             /\ step demo_publisher None HostShowRewardedAd st = Some (c, st1)
             /\ c = Normal (VAwaitTranslate 2)).
  { do 3 eexists. split; [vm_compute; reflexivity |].
    split; [vm_compute; reflexivity |]. split; vm_compute; reflexivity. }
  destruct Hrun as (st & c & st1 & Hrun & Hflag & Hstep & Hc).
  destruct (H None demo_triggered st Hrun Hflag) as [st' Hsoft].
  rewrite Hstep in Hsoft. subst c. discriminate Hsoft.
Qed.

(** C9, at a concrete input. *)
Lemma C9_flag_false_from_initialize_witness :
  exists st1 st,
    initializeCalled (googleAdPlacementPlugin None) = false
    /\ step demo_publisher None (HostInitialize demo_ctx) (googleAdPlacementPlugin None)
       = Some (Normal VPending, st1)
    /\ no_offer [ScriptLoad; ClockAdvance 5]
    /\ run demo_publisher None [ScriptLoad; ClockAdvance 5] st1 = Some st
    /\ canShowRewardedAd st = Some false.
Proof.
  assert (H : exists st1 st,
             step demo_publisher None (HostInitialize demo_ctx)
               (googleAdPlacementPlugin None) = Some (Normal VPending, st1)
             /\ run demo_publisher None [ScriptLoad; ClockAdvance 5] st1 = Some st).
  { do 2 eexists. split; [vm_compute; reflexivity |]. vm_compute; reflexivity. }
  destruct H as (st1 & st & H1 & H2). exists st1, st.
  assert (Hno : no_offer [ScriptLoad; ClockAdvance 5]) by (repeat constructor).
  split; [reflexivity |]. split; [exact H1 |]. split; [exact Hno |].
  split; [exact H2 |].
  exact (proj2 (proj2 (proj2 (proj2
           (C9_flag_false_from_initialize demo_publisher None demo_ctx
              (googleAdPlacementPlugin None) st1 st (Normal VPending)
              [ScriptLoad; ClockAdvance 5] eq_refl H1 Hno H2))))).
Defined.

(** C2, at a concrete input: after the trigger was invoked. *)
Lemma C2_trigger_function_and_flag_witness :
  exists st,
    run demo_publisher None demo_triggered (googleAdPlacementPlugin None) = Some st
    /\ (showRewardedAdFn st <> None <->
        canShowRewardedAd st = Some true \/ resolveRewardedAdFn st <> None).
Proof.
  assert (H : exists st,
             run demo_publisher None demo_triggered (googleAdPlacementPlugin None)
             = Some st)
    by (eexists; vm_compute; reflexivity).
  destruct H as [st H]. exists st. split; [exact H |].
  exact (proj2 (C2_trigger_function_and_flag demo_publisher None None
                  demo_triggered st H)).
Defined.

(** The claim C2 as the specification states it fails once the trigger has
    been invoked: the function is still stored and the flag is false. *)
Lemma C2_counterexample :
  ~ (forall existing events st,
       run demo_publisher None events (googleAdPlacementPlugin existing) = Some st ->
       (showRewardedAdFn st <> None <-> canShowRewardedAd st = Some true)).
Proof.
  intros H.
  assert (Hrun : exists st,
             run demo_publisher None demo_triggered (googleAdPlacementPlugin None)
             = Some st
             /\ showRewardedAdFn st = Some 7
             /\ canShowRewardedAd st = Some false).
  { eexists. split; [vm_compute; reflexivity |]. split; vm_compute; reflexivity. }
  destruct Hrun as (st & Hrun & Hfn & Hflag).
  destruct (H None demo_triggered st Hrun) as [Himp _].
  rewrite Hfn, Hflag in Himp.
  assert (Hsome : Some 7 <> @None nat) by discriminate.
  specialize (Himp Hsome). discriminate Himp.
Qed.

(** C3, at a concrete input: the trigger was invoked, then the vendor
    reports "viewed". *)
Lemma C3_completion_resolves_and_closes_witness :
  exists st st1 st2,
    run demo_publisher None (demo_triggered ++ [ClockAdvance 300])
      (googleAdPlacementPlugin None) = Some st
    /\ adsbygoogle st !! 1 = Some (AdBreakReward 0)
    /\ promises st !! 0 = Some None
    /\ resolveRewardedAdFn st = Some 1
    /\ step demo_publisher None (VendorAdBreakDone 1 demo_viewed) st
       = Some (Normal VUndefined, st1)
    /\ step demo_publisher None LoopResume st1 = Some (Normal VUndefined, st2)
    /\ settled st2 (VAwaitTranslate 1) = Some (mkResult true None).
Proof.
  assert (H : exists st,
             run demo_publisher None (demo_triggered ++ [ClockAdvance 300])
               (googleAdPlacementPlugin None) = Some st
             /\ adsbygoogle st !! 1 = Some (AdBreakReward 0)
             /\ promises st !! 0 = Some None
             /\ resolveRewardedAdFn st = Some 1).
  { eexists. split; [vm_compute; reflexivity |].
    split; [vm_compute; reflexivity |]. split; vm_compute; reflexivity. }
  destruct H as (st & Hrun & Hq & Hp & Hr). exists st.
  destruct (C3_completion_resolves_and_closes demo_publisher None None
              (demo_triggered ++ [ClockAdvance 300]) st 1 0 demo_viewed Hrun Hq Hp)
    as (st1 & st2 & H1 & H2 & Hres & _).
  exists st1, st2. repeat (split; [assumption |]).
  destruct (Hres 1 Hr) as (_ & _ & _ & Hviewed).
  exact (Hviewed eq_refl).
Defined.

(** C4, at a concrete input: the offer of the scenario. *)
Lemma C4_trigger_closes_offer_witness :
  exists st st1,
    run demo_publisher None demo_offer (googleAdPlacementPlugin None) = Some st
    /\ showRewardedAdFn st = Some 7
    /\ step demo_publisher None HostShowRewardedAd st
       = Some (Normal (VAwaitTranslate (length (promises st))), st1)
    /\ trace st1 = trace st ++ [ESetCanShowRewardedAd false; EShowAdFn 7].
Proof.
  assert (H : exists st,
             run demo_publisher None demo_offer (googleAdPlacementPlugin None) = Some st
             /\ showRewardedAdFn st = Some 7).
  { eexists. split; vm_compute; reflexivity. }
  destruct H as (st & Hrun & Hfn). exists st.
  destruct (C4_trigger_closes_offer demo_publisher None None demo_offer st 7 Hrun Hfn)
    as [(st1 & H1 & Htrace & _) _].
  exists st1. repeat (split; [assumption |]). exact Htrace.
Defined.

(** The second half of C4 as the specification states it fails: a second
    invocation in the same request, with no new offer, calls the vendor's
    show function again. *)
Lemma C4_counterexample :
  ~ (forall existing events st f c1 st1 events' st2 c2 st3,
       run demo_publisher None events (googleAdPlacementPlugin existing) = Some st ->
       showRewardedAdFn st = Some f ->
       step demo_publisher None HostShowRewardedAd st = Some (c1, st1) ->
       Forall (fun e => e <> LoopResume /\ is_offer e = false) events' ->
       run demo_publisher None events' st1 = Some st2 ->
       step demo_publisher None HostShowRewardedAd st2 = Some (c2, st3) ->
       count_shows (log st3) = count_shows (log st2)).
Proof.
  intros H.
  assert (Hrun : exists st c1 st1 c2 st3,
             run demo_publisher None demo_offer (googleAdPlacementPlugin None) = Some st
             /\ showRewardedAdFn st = Some 7
             /\ step demo_publisher None HostShowRewardedAd st = Some (c1, st1)
             /\ step demo_publisher None HostShowRewardedAd st1 = Some (c2, st3)
             /\ count_shows (log st1) = 1
             /\ count_shows (log st3) = 2).
  { do 5 eexists. split; [vm_compute; reflexivity |].
    split; [vm_compute; reflexivity |]. split; [vm_compute; reflexivity |].
    split; [vm_compute; reflexivity |]. split; vm_compute; reflexivity. }
  destruct Hrun as (st & c1 & st1 & c2 & st3 & Hrun & Hfn & H1 & H2 & Hc1 & Hc3).
  specialize (H None demo_offer st 7 c1 st1 [] st1 c2 st3
                Hrun Hfn H1 (List.Forall_nil _) eq_refl H2).
  rewrite Hc1, Hc3 in H. discriminate H.
Qed.

(** The timer of the scenario does not fire after 699 ms, and the second
    request is pushed at 1000 ms. *)
Example demo_timer_not_early :
  run demo_publisher None (demo_done ++ [LoopResume; ClockAdvance 699; TimerFire])
    (googleAdPlacementPlugin None) = None.
Proof. vm_compute. reflexivity. Qed.

Example demo_retry_starts :
  (fun st => reward_starts (log st))
    <$> run demo_publisher None demo_retry (googleAdPlacementPlugin None)
  = Some [1000%Q; 0%Q].
Proof. vm_compute. reflexivity. Qed.

(** With the report 300.5 ms after the push, the second request is pushed
    at 999.5 ms. *)
Example demo_fraction_starts :
  (fun st => reward_starts (log st))
    <$> run demo_publisher None demo_fraction (googleAdPlacementPlugin None)
  = Some [999.5%Q; 0%Q].
Proof. vm_compute. reflexivity. Qed.



(** C8, at a concrete input: [beforeAd] on the plugin as constructed. *)
Lemma C8_misuse_outcomes_witness :
  run demo_publisher None [] (googleAdPlacementPlugin None)
  = Some (googleAdPlacementPlugin None)
  /\ misuse_in BeforeAdUninitialized (googleAdPlacementPlugin None)
  /\ misuse_call demo_publisher None BeforeAdUninitialized (googleAdPlacementPlugin None)
     = (Throw not_initialized, googleAdPlacementPlugin None).
Proof.
  split; [reflexivity |]. split; [reflexivity |].
  exact (C8_misuse_outcomes demo_publisher None None [] _ BeforeAdUninitialized
           eq_refl eq_refl).
Defined.

(** The claim C8 as the specification states it fails for [showRewardedAd]
    before initialization, which returns a result. *)
Lemma C8_counterexample :
  ~ (forall existing events st m,
       run demo_publisher None events (googleAdPlacementPlugin existing) = Some st ->
       misuse_in m st ->
       raised (fst (misuse_call demo_publisher None m st))).
Proof.
  intros H.
  destruct (H None [] _ ShowRewardedAdUninitialized eq_refl eq_refl) as [msg Hmsg].
  discriminate Hmsg.
Qed.

(** * Further properties of the plugin *)

(** As [step_cases], with the fields of the state named. *)
Ltac step_cases_named H :=
  match type of H with
  | step _ _ ?e ?st = Some _ =>
      destruct e;
      destruct st as [called stored fn res queue hd cells clk np nm flag it task lg];
      revert H; unfold_blocks; intros H; break_match H;
      inversion H; subst; clear H
  end.

Section MoreProperties.

Context (publisherId : string) (adFrequencyHint : option string).

Local Abbreviation step := (step publisherId adFrequencyHint).
Local Abbreviation run := (run publisherId adFrequencyHint).
Local Abbreviation scriptTag := (scriptTag publisherId adFrequencyHint).

(** ** What every step keeps *)

Lemma step_queue_grows e st c st' :
  step e st = Some (c, st') ->
  exists added, adsbygoogle st' = adsbygoogle st ++ added.
Proof.
  intros H. step_cases H; simpl;
    first [ exists []; rewrite app_nil_r; reflexivity
          | eexists; reflexivity
          | eexists; rewrite <- app_assoc; reflexivity ].
Qed.

Lemma step_queue_lookup e st c st' i (request : Command) :
  adsbygoogle st !! i = Some request ->
  step e st = Some (c, st') ->
  adsbygoogle st' !! i = Some request.
Proof.
  intros Hi H. destruct (step_queue_grows _ _ _ _ H) as [added ->].
  apply lookup_app_l_Some. exact Hi.
Qed.

Lemma run_queue_lookup events st st' i (request : Command) :
  adsbygoogle st !! i = Some request ->
  run events st = Some st' ->
  adsbygoogle st' !! i = Some request.
Proof.
  intros Hi Hrun.
  eapply (run_preserves publisherId adFrequencyHint
            (fun s => adsbygoogle s !! i = Some request)); eauto.
  intros e s c s' Hs He. eapply step_queue_lookup; eauto.
Qed.

(** A settled promise keeps its value. *)
Lemma step_settled_cell e st c st' p info :
  promises st !! p = Some (Some info) ->
  step e st = Some (c, st') ->
  promises st' !! p = Some (Some info).
Proof.
  intros Hp H.
  assert (Hlt : p < length (promises st)) by (eapply lookup_lt_Some; eauto).
  step_cases H; simpl in *;
    repeat match goal with
    | |- (_ ++ _) !! _ = _ => rewrite lookup_app_l by (rewrite ?length_insert; exact Hlt)
    | |- <[?q := _]> _ !! ?p' = _ =>
        destruct (Nat.eq_dec q p') as [-> | Hne];
        [ congruence | rewrite list_lookup_insert_ne by exact Hne ]
    end; try exact Hp.
Qed.

Lemma run_settled events st st' v r :
  settled st v = Some r ->
  run events st = Some st' ->
  settled st' v = Some r.
Proof.
  intros Hs Hrun. destruct v as [| | r' | p]; simpl in *; try discriminate.
  - exact Hs.
  - destruct (promises st !! p) as [[info |] |] eqn:Hp; try discriminate.
    assert (Hp' : promises st' !! p = Some (Some info)).
    { eapply (run_preserves publisherId adFrequencyHint
                (fun s => promises s !! p = Some (Some info))); eauto.
      intros e s c s' Hq He. eapply step_settled_cell; eauto. }
    rewrite Hp'. exact Hs.
Qed.

(** ** Full-screen ads *)

(** X1. [showFullScreenAd] never throws, whatever the state, initialized or
    not: it pushes one "pause" request at the end of the queue, leaves the
    rewarded-ad variables, the flags of the host and the loop as they are,
    and returns a pending promise.  Whatever happens next, as long as that
    promise is pending, the vendor's [adBreakDone] of this request fulfils
    it with the translation of the PlacementInfo, and no later event changes
    that result. *)
Theorem X1_full_screen_ad_settles (st : State) :
  let p := length (promises st) in
  let i := length (adsbygoogle st) in
  exists st1,
    step HostShowFullScreenAd st = Some (Normal (VAwaitTranslate p), st1)
    /\ adsbygoogle st1 = adsbygoogle st ++ [AdBreakPause p]
    /\ settled st1 (VAwaitTranslate p) = None
    /\ showRewardedAdFn st1 = showRewardedAdFn st
    /\ resolveRewardedAdFn st1 = resolveRewardedAdFn st
    /\ canShowRewardedAd st1 = canShowRewardedAd st
    /\ needsPause st1 = needsPause st
    /\ needsMute st1 = needsMute st
    /\ loopTask st1 = loopTask st
    /\ forall events st2 info,
         run events st1 = Some st2 ->
         promises st2 !! p = Some None ->
         exists st3,
           step (VendorAdBreakDone i info) st2 = Some (Normal VUndefined, st3)
           /\ settled st3 (VAwaitTranslate p) = Some (placementInfoToAdLadResult info)
           /\ forall events' st4,
                run events' st3 = Some st4 ->
                settled st4 (VAwaitTranslate p) = Some (placementInfoToAdLadResult info).
Proof.
  intros p i. subst p i.
  destruct st as [called ctx fn res queue hd cells clk np nm flag it lt lg].
  eexists. split; [unfold_blocks; reflexivity |]. simpl.
  split; [reflexivity |].
  split; [rewrite fresh_is_pending; reflexivity |].
  do 6 (split; [reflexivity |]).
  intros events st2 info Hrun Hpend.
  assert (Hq : adsbygoogle st2 !! length queue = Some (AdBreakPause (length cells))).
  { eapply run_queue_lookup; [| exact Hrun]. simpl.
    rewrite lookup_app_r by lia. rewrite Nat.sub_diag. reflexivity. }
  assert (Hlt : length cells < length (promises st2)) by (eapply lookup_lt_Some; eauto).
  destruct st2 as [called2 ctx2 fn2 res2 queue2 hd2 cells2 clk2 np2 nm2 flag2 it2 lt2 lg2].
  simpl in *. eexists.
  split; [unfold_blocks; rewrite Hq, Hpend; reflexivity |].
  assert (Hset : settled
                   (mkState called2 ctx2 fn2 res2 queue2 hd2
                      (<[length cells := Some info]> cells2) clk2 np2 nm2 flag2 it2 lt2
                      ((clk2, EResolve (length cells) info) :: lg2))
                   (VAwaitTranslate (length cells))
                 = Some (placementInfoToAdLadResult info)).
  { simpl. rewrite list_lookup_insert_eq by exact Hlt. reflexivity. }
  split; [exact Hset |].
  intros events' st4 Hrun'. exact (run_settled _ _ _ _ _ Hset Hrun').
Qed.

(** ** Requests do not interfere *)

Lemma done_of_In (queue : list Command) i request p :
  queue !! i = Some request -> done_of request = Some p ->
  In p (done_promises queue).
Proof.
  intros Hi Hp. destruct request; simpl in Hp; inversion Hp; subst;
    eapply done_promises_lookup; eauto.
Qed.

Lemma done_index_unique (queue : list Command) i j request1 request2 p :
  NoDup (done_promises queue) ->
  queue !! i = Some request1 -> done_of request1 = Some p ->
  queue !! j = Some request2 -> done_of request2 = Some p ->
  i = j.
Proof.
  revert i j. induction queue as [| c queue IH]; intros i j Hnd Hi Hp1 Hj Hp2.
  - destruct i; discriminate.
  - assert (Htail : NoDup (done_promises queue)).
    { destruct c; simpl in Hnd; try exact Hnd; inversion Hnd; assumption. }
    destruct i as [| i], j as [| j]; simpl in *.
    + reflexivity.
    + exfalso. inversion Hi; subst c.
      assert (Hin : In p (done_promises queue)) by (eapply done_of_In; eauto).
      destruct request1; simpl in Hp1; inversion Hp1; subst;
        simpl in Hnd; inversion Hnd as [| ? ? Hnin _]; subst;
        apply Hnin; apply list_elem_of_In; exact Hin.
    + exfalso. inversion Hj; subst c.
      assert (Hin : In p (done_promises queue)) by (eapply done_of_In; eauto).
      destruct request2; simpl in Hp2; inversion Hp2; subst;
        simpl in Hnd; inversion Hnd as [| ? ? Hnin _]; subst;
        apply Hnin; apply list_elem_of_In; exact Hin.
    + f_equal. eapply IH; eauto.
Qed.

(** X2. In every reachable state, the promise of a request in the queue,
    full-screen or rewarded, stays pending under every event except the
    vendor's [adBreakDone] of that same request: no completion of another
    request, no call of the host and no step of the loop settles it. *)
Theorem X2_only_own_completion_settles
    (existing : option (list string)) (events : list Event) (st st' : State)
    (i : nat) (request : Command) (p : PromiseId) (e : Event)
    (c : Completion Value) :
  run events (googleAdPlacementPlugin existing) = Some st ->
  adsbygoogle st !! i = Some request ->
  done_of request = Some p ->
  promises st !! p = Some None ->
  (forall info, e <> VendorAdBreakDone i info) ->
  step e st = Some (c, st') ->
  promises st' !! p = Some None.
Proof.
  intros Hrun Hi Hdone Hp Hother H.
  destruct (reachable_Inv _ _ _ _ _ Hrun) as (_ & _ & (Hlt & Hnd & Hrew & Hres) & _).
  pose proof (done_of_In _ _ _ _ Hi Hdone) as Hin.
  step_cases H; simpl in *; try exact Hp.
  all: try (apply pending_alloc_iff).
  all: try exact Hp.
  all: try (apply pending_other_resolve; [| exact Hp]).
  all: try solve [ intros ->;
                   match goal with
                   | Hq : _ !! ?j = Some (_ ?q) |- _ =>
                       assert (i = j) by
                         (eapply done_index_unique;
                            [exact Hnd | exact Hi | exact Hdone | exact Hq | reflexivity]);
                       subst; eapply Hother; reflexivity
                   end ].
  all: try solve [ intros ->; destruct (Hres _ eq_refl) as [_ Hnin]; exact (Hnin Hin) ].
Qed.

(** ** A trigger invoked twice *)

Lemma step_orphan e st c st' p :
  orphan p st -> step e st = Some (c, st') -> orphan p st'.
Proof.
  unfold orphan. intros (Hp & Hnin & Hres) H.
  assert (Hlt : p < length (promises st)) by (eapply lookup_lt_Some; eauto).
  step_cases H; simpl in *;
    rewrite ?done_promises_app, ?length_insert; simpl; rewrite ?app_nil_r.
  all: try (split; [exact Hp |]; split; [exact Hnin | exact Hres]).
  all: repeat apply conj.
  all: try exact Hnin.
  all: try exact Hres.
  all: try solve [discriminate].
  all: try solve [intros Heq; inversion Heq; lia].
  all: try solve [intros Hin; apply in_app_or in Hin;
                  destruct Hin as [Hin | [Heq | []]]; [exact (Hnin Hin) | lia]].
  all: try (apply pending_alloc_iff).
  all: try exact Hp.
  all: try (apply pending_other_resolve; [| try apply pending_other_resolve; try exact Hp]).
  all: try solve [intros ->; apply Hnin; eapply done_promises_lookup; eauto].
  all: try solve [intros ->; apply Hres; reflexivity].
Qed.

(** X3. In every reachable state in which a display request is pending and
    the trigger function is still stored, a further [showRewardedAd] calls
    the vendor's show function again and stores a new resolver in place of
    the pending one; the promise of the earlier call is then never
    fulfilled, whatever happens afterwards. *)
Theorem X3_second_trigger_orphans_first
    (existing : option (list string)) (events : list Event) (st : State)
    (f : ShowAdFn) (earlier : PromiseId) :
  run events (googleAdPlacementPlugin existing) = Some st ->
  showRewardedAdFn st = Some f ->
  resolveRewardedAdFn st = Some earlier ->
  exists st1,
    step HostShowRewardedAd st
    = Some (Normal (VAwaitTranslate (length (promises st))), st1)
    /\ trace st1 = trace st ++ [ESetCanShowRewardedAd false; EShowAdFn f]
    /\ resolveRewardedAdFn st1 = Some (length (promises st))
    /\ earlier <> length (promises st)
    /\ forall events' st2,
         run events' st1 = Some st2 ->
         settled st2 (VAwaitTranslate earlier) = None.
Proof.
  intros Hrun Hfn Hres.
  destruct (reachable_Inv _ _ _ _ _ Hrun) as (_ & _ & (_ & _ & _ & Hinv) & _).
  destruct (Hinv _ Hres) as [Hp Hnin].
  assert (Hlt : earlier < length (promises st)) by (eapply lookup_lt_Some; eauto).
  destruct st as [called ctx fn res queue hd cells clk np nm flag it lt lg].
  simpl in *. subst fn res. eexists.
  split; [unfold_blocks; reflexivity |].
  split; [unfold trace; simpl; rewrite <- app_assoc; reflexivity |].
  split; [reflexivity |]. split; [lia |].
  intros events' st2 Hrun'.
  assert (Horphan : orphan earlier st2).
  { eapply (run_preserves publisherId adFrequencyHint (orphan earlier));
      [| | exact Hrun'].
    - intros e s c s' Hs He. eapply step_orphan; eauto.
    - unfold orphan. simpl. split; [apply pending_alloc_iff; exact Hp |].
      split; [exact Hnin |]. intros Heq. inversion Heq. lia. }
  destruct Horphan as [Hpend _]. simpl. rewrite Hpend. reflexivity.
Qed.

(** ** Pause and mute *)

(** X4. In every reachable state after [initialize] was called, the
    [beforeAd] callback of any request of the plugin does not throw and
    calls [setNeedsPause(true)], then [setNeedsMute(true)]; the [afterAd]
    callback that follows calls [setNeedsMute(false)], then
    [setNeedsPause(false)].  After the pair the state is the one before it,
    except that both flags of the host are false. *)
Theorem X4_pause_mute_bracket
    (existing : option (list string)) (events : list Event) (st : State)
    (i : nat) (request : Command) :
  run events (googleAdPlacementPlugin existing) = Some st ->
  initializeCalled st = true ->
  adsbygoogle st !! i = Some request ->
  is_ad_break request = true ->
  exists st1 st2,
    step (VendorBeforeAd i) st = Some (Normal VUndefined, st1)
    /\ trace st1 = trace st ++ [ESetNeedsPause true; ESetNeedsMute true]
    /\ needsPause st1 = Some true
    /\ needsMute st1 = Some true
    /\ step (VendorAfterAd i) st1 = Some (Normal VUndefined, st2)
    /\ trace st2 = trace st1 ++ [ESetNeedsMute false; ESetNeedsPause false]
    /\ st2 = set_log (log st2)
               (set_needsMute (Some false) (set_needsPause (Some false) st)).
Proof.
  intros Hrun Hcalled Hi Hreq.
  destruct (reachable_Inv _ _ _ _ _ Hrun) as ((_ & Hctx & _) & _).
  specialize (Hctx Hcalled).
  destruct st as [called ctx fn res queue hd cells clk np nm flag it lt lg].
  simpl in *. destruct ctx as [ctx |]; [| congruence].
  destruct request; try discriminate Hreq.
  - do 2 eexists.
    split; [unfold_blocks; rewrite Hi; reflexivity |].
    split; [unfold trace; simpl; rewrite <- app_assoc; reflexivity |].
    split; [reflexivity |]. split; [reflexivity |].
    split; [unfold_blocks; rewrite Hi; reflexivity |].
    split; [unfold trace; simpl; rewrite <- !app_assoc; reflexivity |].
    reflexivity.
  - do 2 eexists.
    split; [unfold_blocks; rewrite Hi; reflexivity |].
    split; [unfold trace; simpl; rewrite <- app_assoc; reflexivity |].
    split; [reflexivity |]. split; [reflexivity |].
    split; [unfold_blocks; rewrite Hi; reflexivity |].
    split; [unfold trace; simpl; rewrite <- !app_assoc; reflexivity |].
    reflexivity.
Qed.

Lemma step_pause_mute e st c st' :
  needsPause st = needsMute st
  /\ (initializeContext st = None -> needsPause st = None) ->
  step e st = Some (c, st') ->
  needsPause st' = needsMute st'
  /\ (initializeContext st' = None -> needsPause st' = None).
Proof.
  intros [Heq Hnone] H.
  step_cases H; simpl in *; split;
    solve [assumption | reflexivity | discriminate | intros; auto
          | intros; apply Hnone; reflexivity ].
Qed.

(** X5. In every reachable state the two flags [needsPause] and
    [needsMute] of the host hold the same value, and before [initialize] is
    called neither setter has been called: a [beforeAd] or [afterAd] that
    throws has set nothing. *)
Theorem X5_pause_and_mute_agree
    (existing : option (list string)) (events : list Event) (st : State) :
  run events (googleAdPlacementPlugin existing) = Some st ->
  needsPause st = needsMute st
  /\ (initializeCalled st = false ->
      needsPause st = None /\ needsMute st = None).
Proof.
  intros Hrun.
  destruct (reachable_Inv _ _ _ _ _ Hrun) as ((Hidle & _ & _) & _).
  assert (H : needsPause st = needsMute st
              /\ (initializeContext st = None -> needsPause st = None)).
  { eapply (run_preserves publisherId adFrequencyHint
              (fun s => needsPause s = needsMute s
                        /\ (initializeContext s = None -> needsPause s = None)));
      [| | exact Hrun].
    - intros e s c s' Hs He. eapply step_pause_mute; eauto.
    - simpl. auto. }
  destruct H as [Heq Hnone]. split; [exact Heq |].
  intros Hcalled. destruct (Hidle Hcalled) as [_ Hctx].
  specialize (Hnone Hctx). split; [exact Hnone | rewrite <- Heq; exact Hnone].
Qed.

(** ** Initialization *)

Lemma Inv_setup_init existing :
  Inv_setup publisherId adFrequencyHint (googleAdPlacementPlugin existing).
Proof.
  unfold Inv_setup. simpl. repeat split; try discriminate.
Qed.

Lemma Inv_setup_step e st c st' :
  Inv_life st ->
  Inv_setup publisherId adFrequencyHint st ->
  step e st = Some (c, st') ->
  Inv_setup publisherId adFrequencyHint st'.
Proof.
  unfold Inv_life, Inv_setup.
  intros (La & Lb & Lc) (Hhead & Hflag & Hcount & Hafter & Hloop) H.
  step_cases_named H; simpl in *;
    rewrite ?reward_promises_app, ?app_nil_r; simpl.
  all: try (split; [exact Hhead |]; split; [exact Hflag |]; split; [exact Hcount |];
            split; [exact Hafter | exact Hloop]).
  all: repeat match goal with
       | Hx : ?x = ?x -> _ |- _ => specialize (Hx eq_refl)
       | Hx : _ /\ _ |- _ => destruct Hx
       end; subst; simpl in *.
  all: try (destruct it;
            try (assert (Hn : _ = LoopNotStarted) by (apply Lc; discriminate);
                 try discriminate Hn)).
  all: repeat split; try assumption; try congruence; try discriminate; try lia.
  all: try solve [intros p' t' Heq; inversion Heq; subst;
                  apply in_or_app; right; left; reflexivity].
  all: try solve [intros p' t' Heq; apply in_or_app; left; eapply Hloop; eauto].
  destruct Hhead as [-> _]. reflexivity.
Qed.

Lemma reachable_Inv_setup existing events st :
  run events (googleAdPlacementPlugin existing) = Some st ->
  Inv st /\ Inv_setup publisherId adFrequencyHint st.
Proof.
  intros Hrun.
  eapply (run_preserves publisherId adFrequencyHint
            (fun s => Inv s /\ Inv_setup publisherId adFrequencyHint s));
    [| | exact Hrun].
  - intros e s c s' [HI Hin] He. split.
    + eapply Inv_step; eauto.
    + destruct HI as [Hl _]. eapply Inv_setup_step; eauto.
  - split; [apply Inv_init | apply Inv_setup_init].
Qed.

(** X6. In every reachable state the document head holds no element of
    the plugin before [initialize] is called and exactly one afterwards,
    whatever happened since: the script element built from the options of
    the plugin and the context of that first call, with the publisher id in
    [data-ad-client] and at the end of [src], the test attribute set to
    "on" exactly when the context asks for test ads, and the frequency hint
    set exactly when the option is a non-empty string. *)
Theorem X6_one_script_element
    (existing : option (list string)) (events : list Event) (st : State) :
  run events (googleAdPlacementPlugin existing) = Some st ->
  match initializeContext st with
  | None => initializeCalled st = false /\ head st = []
  | Some ctx =>
      initializeCalled st = true
      /\ exists tag,
          head st = [tag]
          /\ tag_adClient tag = publisherId
          /\ tag_src tag
             = ("https://pagead2.googlesyndication.com/pagead/js/adsbygoogle.js?client="
                ++ publisherId)%string
          /\ tag_async tag = true
          /\ tag_crossOrigin tag = "anonymous"
          /\ (tag_adbreakTest tag = Some "on" <-> useTestAds ctx = true)
          /\ (tag_adbreakTest tag = None <-> useTestAds ctx = false)
          /\ (forall hint,
                tag_adFrequencyHint tag = Some hint <->
                adFrequencyHint = Some hint /\ hint <> "")
  end.
Proof.
  intros Hrun.
  destruct (reachable_Inv_setup _ _ _ Hrun) as [_ (Hhead & _)].
  destruct (initializeContext st) as [ctx |].
  - destruct Hhead as [Hhead Hcalled]. split; [exact Hcalled |].
    eexists. split; [exact Hhead |]. simpl.
    do 4 (split; [reflexivity |]).
    split; [destruct (useTestAds ctx); split; congruence |].
    split; [destruct (useTestAds ctx); split; congruence |].
    intros hint. destruct adFrequencyHint as [given |]; [| split; [discriminate | intros [? _]; discriminate]].
    destruct (String.eqb_spec given "") as [-> | Hne].
    + split; [discriminate | intros [Heq Hne]; inversion Heq; subst; congruence].
    + split.
      * intros Heq. inversion Heq; subst. split; [reflexivity | exact Hne].
      * intros [Heq _]. exact Heq.
  - destruct Hhead as [Hhead Hcalled]. split; assumption.
Qed.


(** X8. In every reachable state in which [initialize] awaits the script,
    the [load] event makes it push the [adConfig] command and then, in the
    same block, the first reward request of the loop, which becomes the
    request the loop awaits: the guard of [rewardedLoop] cannot throw there.
    The flag of the host stays false and no trigger function is stored. *)
Theorem X8_script_load_starts_loop
    (existing : option (list string)) (events : list Event) (st : State) :
  run events (googleAdPlacementPlugin existing) = Some st ->
  initTask st = InitAwaitLoad ->
  exists st',
    step ScriptLoad st = Some (Normal VUndefined, st')
    /\ initTask st' = InitFulfilled
    /\ adsbygoogle st'
       = adsbygoogle st ++ [AdConfig "on"; AdBreakReward (length (promises st))]
    /\ trace st'
       = trace st ++ [EPush (AdConfig "on");
                      EPush (AdBreakReward (length (promises st)))]
    /\ promises st' = promises st ++ [None]
    /\ loopTask st' = LoopAwait (length (promises st)) (clock st)
    /\ canShowRewardedAd st' = Some false
    /\ showRewardedAdFn st' = None.
Proof.
  intros Hrun Hinit.
  destruct (reachable_Inv_setup _ _ _ Hrun)
    as [((La & Lb & Lc) & (Ha & _) & _) (_ & Hflag & _)].
  assert (Hcalled : initializeCalled st = true).
  { destruct (initializeCalled st); [reflexivity |].
    destruct (La eq_refl) as [Hidle _]. congruence. }
  specialize (Lb Hcalled). specialize (Hflag Hcalled).
  assert (Hloop : loopTask st = LoopNotStarted) by (apply Lc; congruence).
  destruct (Ha Hloop) as (_ & Hfn & _ & Hnot).
  destruct st as [called stored fn res queue hd cells clk np nm flag it task lg].
  simpl in *. subst it fn.
  destruct stored as [ctx |]; [| congruence].
  destruct flag as [[|] |]; try congruence.
  eexists. split; [unfold_blocks; reflexivity |]. simpl.
  split; [reflexivity |].
  split; [rewrite <- app_assoc; reflexivity |].
  split; [unfold trace; simpl; rewrite <- app_assoc; reflexivity |].
  repeat split.
Qed.

Lemma step_rejected e st c st' :
  initializeCalled st = true /\ initTask st = InitRejected ->
  step e st = Some (c, st') ->
  initializeCalled st' = true /\ initTask st' = InitRejected.
Proof.
  intros [Hcalled Hinit] H.
  step_cases_named H; simpl in *; subst; try discriminate; split; reflexivity.
Qed.

(** X9. When the script fails to load, rewarded ads stay switched off for
    good: in every reachable state in which [initialize] was rejected, the
    loop has not started, no [adConfig] command and no reward request was
    pushed, no trigger function is stored and the flag of the host is false;
    all of this stays so whatever happens afterwards, and every
    [showRewardedAd] returns [{didShowAd:false, errorReason:"no-ad-available"}]. *)
Theorem X9_script_error_disables_rewarded_ads
    (existing : option (list string)) (events : list Event) (st : State) :
  run events (googleAdPlacementPlugin existing) = Some st ->
  initTask st = InitRejected ->
  forall events' st',
    run events' st = Some st' ->
    initTask st' = InitRejected
    /\ loopTask st' = LoopNotStarted
    /\ configs (log st') = []
    /\ reward_promises (adsbygoogle st') = []
    /\ showRewardedAdFn st' = None
    /\ canShowRewardedAd st' = Some false
    /\ step HostShowRewardedAd st' = Some (Normal (VResult no_ad_available), st').
Proof.
  intros Hrun Hinit events' st' Hrun'.
  assert (Hreach : run (events ++ events') (googleAdPlacementPlugin existing) = Some st').
  { rewrite run_app, Hrun. exact Hrun'. }
  destruct (reachable_Inv_setup _ _ _ Hrun) as [((La & _ & _) & _) _].
  assert (Hcalled : initializeCalled st = true).
  { destruct (initializeCalled st); [reflexivity |].
    destruct (La eq_refl) as [Hidle _]. congruence. }
  assert (Hrej : initializeCalled st' = true /\ initTask st' = InitRejected).
  { eapply (run_preserves publisherId adFrequencyHint
              (fun s => initializeCalled s = true /\ initTask s = InitRejected));
      [| | exact Hrun'].
    - intros e s c s' Hs He. eapply step_rejected; eauto.
    - split; assumption. }
  destruct Hrej as [Hcalled' Hinit'].
  destruct (reachable_Inv_setup _ _ _ Hreach)
    as [((_ & _ & Lc) & (Ha & _) & _) (_ & Hflag & Hconfigs & _)].
  assert (Hloop : loopTask st' = LoopNotStarted) by (apply Lc; congruence).
  destruct (Ha Hloop) as (Hrew & Hfn & _ & Hnot).
  rewrite Hinit' in Hconfigs. specialize (Hflag Hcalled').
  split; [exact Hinit' |]. split; [exact Hloop |]. split; [exact Hconfigs |].
  split; [exact Hrew |]. split; [exact Hfn |].
  split; [destruct (canShowRewardedAd st') as [[|] |]; congruence |].
  apply showRewardedAd_without_trigger. exact Hfn.
Qed.

(** ** The loop goes on *)

Lemma run_cons e events st :
  run (e :: events) st
  = match step e st with
    | Some (_, st') => run events st'
    | None => None
    end.
Proof. reflexivity. Qed.

Lemma reward_promises_index (queue : list Command) p :
  In p (reward_promises queue) -> exists i, queue !! i = Some (AdBreakReward p).
Proof.
  induction queue as [| c queue IH]; simpl; [contradiction |].
  destruct c as [q | q | s | s]; simpl.
  - intros [<- | Hin]; [exists 0; reflexivity |].
    destruct (IH Hin) as [i Hi]. exists (S i). exact Hi.
  - intros Hin. destruct (IH Hin) as [i Hi]. exists (S i). exact Hi.
  - intros Hin. destruct (IH Hin) as [i Hi]. exists (S i). exact Hi.
  - intros Hin. destruct (IH Hin) as [i Hi]. exists (S i). exact Hi.
Qed.

(** A sleeping loop pushes its next request once the time has come. *)
Lemma sleeping_loop_retries st wake :
  loopTask st = LoopSleeping wake ->
  exists st' next,
    run [ClockAdvance (Qmax 0 (wake - clock st)); TimerFire] st = Some st'
    /\ adsbygoogle st' = adsbygoogle st ++ [AdBreakReward next]
    /\ loopTask st' = LoopAwait next (clock st')
    /\ promises st' !! next = Some None.
Proof.
  intros Htask.
  destruct st as [called stored fn res queue hd cells clk np nm flag it task lg].
  simpl in Htask. subst task. cbn [clock adsbygoogle].
  assert (H0 : Qle_bool 0 (Qmax 0 (wake - clk)) = true).
  { apply Qle_bool_iff. apply Q.le_max_l. }
  assert (H1 : Qle_bool wake (clk + Qmax 0 (wake - clk)) = true).
  { apply Qle_bool_iff. pose proof (Q.le_max_r 0 (wake - clk)). lra. }
  exists (mkState called stored fn res (queue ++ [AdBreakReward (length cells)]) hd
            (cells ++ [None]) (clk + Qmax 0 (wake - clk)) np nm flag it
            (LoopAwait (length cells) (clk + Qmax 0 (wake - clk)))
            (((clk + Qmax 0 (wake - clk))%Q, EPush (AdBreakReward (length cells))) :: lg)),
         (length cells).
  split.
  - rewrite run_cons. unfold_blocks. rewrite H0. cbv beta iota.
    rewrite run_cons. unfold_blocks. rewrite H1. reflexivity.
  - simpl. split; [reflexivity |]. split; [reflexivity |]. apply fresh_is_pending.
Qed.

(** A loop whose request is complete resumes: it pushes the next request or
    goes to sleep, pushing nothing. *)
Lemma completed_loop_resumes st p lastCallTime result :
  loopTask st = LoopAwait p lastCallTime ->
  promises st !! p = Some (Some result) ->
  exists st',
    step LoopResume st = Some (Normal VUndefined, st')
    /\ ((exists next,
           adsbygoogle st' = adsbygoogle st ++ [AdBreakReward next]
           /\ loopTask st' = LoopAwait next (clock st')
           /\ promises st' !! next = Some None)
        \/ (exists wake,
              adsbygoogle st' = adsbygoogle st /\ loopTask st' = LoopSleeping wake)).
Proof.
  intros Htask Hp.
  destruct st as [called stored fn res queue hd cells clk np nm flag it task lg].
  simpl in *. subst task.
  unfold_blocks. rewrite Hp.
  destruct res as [r |]; [destruct (cells !! r) as [[info |] |] |];
    destruct (Qlt_bool 0 (REWARDED_LOOP_RETRY_TIMEOUT - (clk - lastCallTime)));
    eexists; (split; [reflexivity |]); simpl;
    first [ right; eexists; split; reflexivity
          | left; eexists; split; [reflexivity |]; split; [reflexivity |];
            apply fresh_is_pending ].
Qed.

(** The events of the loop never throw. *)
Lemma loop_event_completes e st c st' :
  loop_event e = true -> step e st = Some (c, st') -> c = Normal VUndefined.
Proof.
  intros He H. step_cases_named H; simpl in He; try discriminate He; reflexivity.
Qed.

Lemma step_loop_started e st c st' :
  loopTask st <> LoopNotStarted -> step e st = Some (c, st') ->
  loopTask st' <> LoopNotStarted.
Proof.
  intros Hstarted H. step_cases_named H; simpl in *; solve [assumption | discriminate].
Qed.

(** X10. Once started, the loop never stops and is never stuck: in every
    reachable state with the loop started, the loop stays started whatever
    happens, no event of the loop throws, and once the vendor has reported
    the end of the current request and enough time has passed, the loop
    pushes exactly one further reward request and awaits it, with no other
    change to the queue and without any call of the host. *)
Theorem X10_loop_goes_on
    (existing : option (list string)) (events : list Event) (st : State)
    (info : PlacementInfo) :
  run events (googleAdPlacementPlugin existing) = Some st ->
  loopTask st <> LoopNotStarted ->
  (forall events' st',
     run events' st = Some st' -> loopTask st' <> LoopNotStarted)
  /\ (forall e s c s',
        loop_event e = true -> step e s = Some (c, s') -> c = Normal VUndefined)
  /\ exists events' st' next,
       Forall (fun e => loop_event e = true) events'
       /\ run events' st = Some st'
       /\ adsbygoogle st' = adsbygoogle st ++ [AdBreakReward next]
       /\ loopTask st' = LoopAwait next (clock st')
       /\ promises st' !! next = Some None.
Proof.
  intros Hrun Hstarted. split; [| split].
  - intros events' st' Hrun'.
    eapply (run_preserves publisherId adFrequencyHint
              (fun s => loopTask s <> LoopNotStarted)); eauto.
    intros e s c s' Hs He. eapply step_loop_started; eauto.
  - intros e s c s'. apply loop_event_completes.
  - destruct (reachable_Inv_setup _ _ _ Hrun)
      as [(_ & _ & (Hlt & _) & _) (_ & _ & _ & _ & Hawait)].
    assert (Hafter : forall s p lastCallTime result,
               loopTask s = LoopAwait p lastCallTime ->
               promises s !! p = Some (Some result) ->
               exists events' s' next,
                 Forall (fun e => loop_event e = true) events'
                 /\ run events' s = Some s'
                 /\ adsbygoogle s' = adsbygoogle s ++ [AdBreakReward next]
                 /\ loopTask s' = LoopAwait next (clock s')
                 /\ promises s' !! next = Some None).
    { intros s p t0 result Htask Hp.
      destruct (completed_loop_resumes s p t0 result Htask Hp)
        as (s1 & Hstep & [(next & Hq & Ht & Hn) | (wake & Hq & Ht)]).
      - exists [LoopResume], s1, next.
        split; [repeat constructor |].
        split; [rewrite run_cons, Hstep; reflexivity |]. auto.
      - destruct (sleeping_loop_retries s1 wake Ht) as (s2 & next & Hrun2 & Hq2 & Ht2 & Hn2).
        exists ([LoopResume] ++ [ClockAdvance (Qmax 0 (wake - clock s1)); TimerFire]),
               s2, next.
        split; [repeat constructor |].
        split; [rewrite run_app, run_cons, Hstep; exact Hrun2 |].
        rewrite <- Hq. auto. }
    destruct (loopTask st) as [| p t0 | wake] eqn:Htask; [congruence | |].
    + pose proof (Hawait p t0 eq_refl) as Hin.
      assert (Hplt : p < length (promises st)).
      { eapply reward_promise_allocated; eauto. }
      destruct (lookup_lt_is_Some_2 _ _ Hplt) as [cell Hcell].
      destruct cell as [result |].
      * apply (Hafter st p t0 result Htask Hcell).
      * destruct (reward_promises_index _ _ Hin) as [i Hi].
        assert (Hdone : exists s1,
                   step (VendorAdBreakDone i info) st = Some (Normal VUndefined, s1)
                   /\ adsbygoogle s1 = adsbygoogle st
                   /\ loopTask s1 = LoopAwait p t0
                   /\ promises s1 !! p = Some (Some info)).
        { clear Hafter Hawait Hlt Hrun Hstarted Hin.
          destruct st as [called stored fn res queue hd cells clk np nm flag it task lg].
          simpl in *. subst task. eexists.
          split; [unfold_blocks; rewrite Hi, Hcell; reflexivity |]. simpl.
          split; [reflexivity |]. split; [reflexivity |].
          apply list_lookup_insert_eq. exact Hplt. }
        destruct Hdone as (s1 & Hstep & Hq1 & Ht1 & Hp1).
        destruct (Hafter s1 p t0 info Ht1 Hp1)
          as (events' & s' & next & Hloop & Hrun' & Hq' & Ht' & Hn').
        exists (VendorAdBreakDone i info :: events'), s', next.
        split; [constructor; [reflexivity | exact Hloop] |].
        split; [rewrite run_cons, Hstep; exact Hrun' |].
        rewrite <- Hq1. auto.
    + destruct (sleeping_loop_retries st wake Htask) as (s2 & next & Hrun2 & Hq2 & Ht2 & Hn2).
      exists [ClockAdvance (Qmax 0 (wake - clock st)); TimerFire], s2, next.
      split; [repeat constructor |]. auto.
Qed.

End MoreProperties.

(** * The earlier revision *)

Ltac unfold_legacy :=
  cbv [LegacyMachine.step LegacyMachine.showFullScreenAd LegacyMachine.showRewardedAd
       LegacyMachine.showAdHelper LegacyMachine.beforeAd LegacyMachine.afterAd
       LegacyMachine.beforeReward LegacyMachine.initializeResume];
  unfold_blocks.

Ltac legacy_cases H :=
  match type of H with
  | LegacyMachine.step _ _ ?e ?st = Some _ =>
      destruct e;
      destruct st as [called stored fn res queue hd cells clk np nm flag it task lg];
      revert H; unfold_legacy; intros H; break_match H;
      inversion H; subst; clear H
  end.

Section LegacyProperties.

Context (publisherId : string) (adFrequencyHint : option string).

Local Abbreviation lstep := (LegacyMachine.step publisherId adFrequencyHint).
Local Abbreviation lrun := (LegacyMachine.run publisherId adFrequencyHint).

Lemma legacy_run_preserves (P : State -> Prop) :
  (forall e st c st', P st -> lstep e st = Some (c, st') -> P st') ->
  forall events st st', P st -> lrun events st = Some st' -> P st'.
Proof.
  intros Hstep events. induction events as [| e events IH]; intros st st' HP Hrun.
  - simpl in Hrun. congruence.
  - simpl in Hrun. destruct (lstep e st) as [[c st1] |] eqn:He; [| discriminate].
    eapply IH; [eapply Hstep; eassumption | exact Hrun].
Qed.

(** The invariant of this revision: nothing of the rewarded-ad machinery of
    the later revision is ever touched, a context is stored exactly when
    [initialize] was called, and the promises of the queue are allocated and
    distinct. *)
Lemma legacy_step_inv e st c st' :
  (needsPause st = None /\ canShowRewardedAd st = None
   /\ showRewardedAdFn st = None /\ resolveRewardedAdFn st = None
   /\ loopTask st = LoopNotStarted
   /\ Forall (fun entry => legacy_effect (snd entry) = true) (log st)
   /\ Forall (fun tag => tag_adbreakTest tag = None) (head st)
   /\ (initializeCalled st = true <-> initializeContext st <> None)
   /\ Forall (fun p => p < length (promises st)) (done_promises (adsbygoogle st))
   /\ NoDup (done_promises (adsbygoogle st))) ->
  lstep e st = Some (c, st') ->
  (needsPause st' = None /\ canShowRewardedAd st' = None
   /\ showRewardedAdFn st' = None /\ resolveRewardedAdFn st' = None
   /\ loopTask st' = LoopNotStarted
   /\ Forall (fun entry => legacy_effect (snd entry) = true) (log st')
   /\ Forall (fun tag => tag_adbreakTest tag = None) (head st')
   /\ (initializeCalled st' = true <-> initializeContext st' <> None)
   /\ Forall (fun p => p < length (promises st')) (done_promises (adsbygoogle st'))
   /\ NoDup (done_promises (adsbygoogle st'))).
Proof.
  intros (Hp & Hf & Hfn & Hres & Hloop & Hlog & Hhead & Hctx & Hlt & Hnd) H.
  legacy_cases H; simpl in *;
    rewrite ?done_promises_app, ?length_app, ?length_insert; simpl;
    rewrite ?app_nil_r.
  all: repeat apply conj; try assumption; try reflexivity.
  all: try solve [repeat (apply Forall_cons; split; [reflexivity |]); assumption].
  all: try solve [apply Forall_app; split; [assumption | repeat constructor]].
  all: try solve [intros _; discriminate].
  all: try solve [apply Hctx].
  all: try solve [apply Forall_app; split;
                    [eapply Forall_lt_weaken; [| exact Hlt]; lia
                    | repeat constructor; lia]].
  all: try solve [eapply Forall_lt_weaken; [| exact Hlt]; lia].
  all: try solve [apply NoDup_snoc_fresh; assumption].
Qed.

Lemma legacy_reachable_inv existing events st :
  lrun events (googleAdPlacementPlugin existing) = Some st ->
  needsPause st = None /\ canShowRewardedAd st = None
  /\ showRewardedAdFn st = None /\ resolveRewardedAdFn st = None
  /\ loopTask st = LoopNotStarted
  /\ Forall (fun entry => legacy_effect (snd entry) = true) (log st)
  /\ Forall (fun tag => tag_adbreakTest tag = None) (head st)
  /\ (initializeCalled st = true <-> initializeContext st <> None)
  /\ Forall (fun p => p < length (promises st)) (done_promises (adsbygoogle st))
  /\ NoDup (done_promises (adsbygoogle st)).
Proof.
  intros Hrun.
  eapply (legacy_run_preserves
            (fun s => needsPause s = None /\ canShowRewardedAd s = None
                      /\ showRewardedAdFn s = None /\ resolveRewardedAdFn s = None
                      /\ loopTask s = LoopNotStarted
                      /\ Forall (fun entry => legacy_effect (snd entry) = true) (log s)
                      /\ Forall (fun tag => tag_adbreakTest tag = None) (head s)
                      /\ (initializeCalled s = true <-> initializeContext s <> None)
                      /\ Forall (fun p => p < length (promises s))
                           (done_promises (adsbygoogle s))
                      /\ NoDup (done_promises (adsbygoogle s))));
    [| | exact Hrun].
  - intros e s c s' Hs He. eapply legacy_step_inv; eauto.
  - simpl.
    assert (Hd : done_promises
                   match existing with Some queue => map Foreign queue | None => [] end
                 = []).
    { destruct existing; [apply done_promises_foreign | reflexivity]. }
    rewrite Hd. repeat split; try constructor; try discriminate; try congruence.
Qed.

(** X11. The earlier revision only ever asks the host to mute: over every
    run from construction it never calls [setNeedsPause] or
    [setCanShowRewardedAd] and sets no timer, so both values stay unset at
    the host, and no script element it adds has the test attribute. *)
Theorem X11_legacy_mutes_only
    (existing : option (list string)) (events : list Event) (st : State) :
  lrun events (googleAdPlacementPlugin existing) = Some st ->
  needsPause st = None
  /\ canShowRewardedAd st = None
  /\ Forall (fun e => legacy_effect e = true) (trace st)
  /\ Forall (fun tag => tag_adbreakTest tag = None) (head st).
Proof.
  intros Hrun.
  destruct (legacy_reachable_inv _ _ _ Hrun) as (Hp & Hf & _ & _ & _ & Hlog & Hhead & _).
  split; [exact Hp |]. split; [exact Hf |]. split; [| exact Hhead].
  unfold trace. apply Forall_rev. apply Forall_fmap.
  eapply Forall_impl; [exact Hlog |]. intros entry Hentry. exact Hentry.
Qed.

Lemma legacy_step_queue_grows e st c st' :
  lstep e st = Some (c, st') ->
  exists added, adsbygoogle st' = adsbygoogle st ++ added.
Proof.
  intros H. legacy_cases H; simpl;
    first [ exists []; rewrite app_nil_r; reflexivity
          | eexists; reflexivity ].
Qed.

Lemma legacy_run_queue_lookup events st st' i (request : Command) :
  adsbygoogle st !! i = Some request ->
  lrun events st = Some st' ->
  adsbygoogle st' !! i = Some request.
Proof.
  intros Hi Hrun.
  eapply (legacy_run_preserves (fun s => adsbygoogle s !! i = Some request)); eauto.
  intros e s c s' Hs He.
  destruct (legacy_step_queue_grows _ _ _ _ He) as [added ->].
  apply lookup_app_l_Some. exact Hs.
Qed.

Lemma legacy_step_settled_cell e st c st' p info :
  promises st !! p = Some (Some info) ->
  lstep e st = Some (c, st') ->
  promises st' !! p = Some (Some info).
Proof.
  intros Hp H.
  assert (Hlt : p < length (promises st)) by (eapply lookup_lt_Some; eauto).
  legacy_cases H; simpl in *;
    repeat match goal with
    | |- (_ ++ _) !! _ = _ => rewrite lookup_app_l by (rewrite ?length_insert; exact Hlt)
    | |- <[?q := _]> _ !! ?p' = _ =>
        destruct (Nat.eq_dec q p') as [-> | Hne];
        [ congruence | rewrite list_lookup_insert_ne by exact Hne ]
    end; try exact Hp.
Qed.

Lemma legacy_run_settled events st st' v r :
  LegacyMachine.settled st v = Some r ->
  lrun events st = Some st' ->
  LegacyMachine.settled st' v = Some r.
Proof.
  intros Hs Hrun. destruct v as [| | r' | p]; simpl in *; try discriminate.
  - exact Hs.
  - destruct (promises st !! p) as [[info |] |] eqn:Hp; try discriminate.
    assert (Hp' : promises st' !! p = Some (Some info)).
    { eapply (legacy_run_preserves (fun s => promises s !! p = Some (Some info))); eauto.
      intros e s c s' Hq He. eapply legacy_step_settled_cell; eauto. }
    rewrite Hp'. exact Hs.
Qed.

(** X12. In the earlier revision both show functions go through
    [showAdHelper], which never throws, whatever the state: it pushes one
    request of the given type at the end of the queue, calls nothing else
    and returns a pending promise.  From then on the vendor's
    [beforeReward] of a reward request calls the vendor's show function at
    once, with no other change, and [adBreakDone] of the request, while the
    promise is pending, fulfils it with the inline translation of the
    PlacementInfo, which no later event changes. *)
Theorem X12_legacy_show_settles (options : LegacyMachine.Options) (st : State) :
  let p := length (promises st) in
  let i := length (adsbygoogle st) in
  let request := match options with
                 | LegacyMachine.PauseOptions => AdBreakPause p
                 | LegacyMachine.RewardOptions => AdBreakReward p
                 end in
  exists st1,
    LegacyMachine.showAdHelper options st = (Normal (VAwaitTranslate p), st1)
    /\ adsbygoogle st1 = adsbygoogle st ++ [request]
    /\ trace st1 = trace st ++ [EPush request]
    /\ LegacyMachine.settled st1 (VAwaitTranslate p) = None
    /\ forall events st2,
         lrun events st1 = Some st2 ->
         (options = LegacyMachine.RewardOptions ->
          forall showAdFn,
            lstep (VendorBeforeReward i showAdFn) st2
            = Some (Normal VUndefined,
                    set_log ((clock st2, EShowAdFn showAdFn) :: log st2) st2))
         /\ forall info,
              promises st2 !! p = Some None ->
              exists st3,
                lstep (VendorAdBreakDone i info) st2 = Some (Normal VUndefined, st3)
                /\ LegacyMachine.settled st3 (VAwaitTranslate p)
                   = Some (Legacy.showAdHelper_result info)
                /\ forall events' st4,
                     lrun events' st3 = Some st4 ->
                     LegacyMachine.settled st4 (VAwaitTranslate p)
                     = Some (Legacy.showAdHelper_result info).
Proof.
  intros p i request. subst p i request.
  destruct st as [called stored fn res queue hd cells clk np nm flag it task lg].
  cbn [promises adsbygoogle].
  exists (mkState called stored fn res
            (queue ++ [match options with
                       | LegacyMachine.PauseOptions => AdBreakPause (length cells)
                       | LegacyMachine.RewardOptions => AdBreakReward (length cells)
                       end]) hd (cells ++ [None]) clk np nm flag it task
            ((clk, EPush match options with
                         | LegacyMachine.PauseOptions => AdBreakPause (length cells)
                         | LegacyMachine.RewardOptions => AdBreakReward (length cells)
                         end) :: lg)).
  split; [destruct options; reflexivity |].
  split; [reflexivity |].
  split; [reflexivity |].
  split; [simpl; rewrite fresh_is_pending; reflexivity |].
  intros events st2 Hrun.
  assert (Hq : adsbygoogle st2 !! length queue
               = Some match options with
                      | LegacyMachine.PauseOptions => AdBreakPause (length cells)
                      | LegacyMachine.RewardOptions => AdBreakReward (length cells)
                      end).
  { eapply legacy_run_queue_lookup; [| exact Hrun]. simpl.
    rewrite lookup_app_r by lia. rewrite Nat.sub_diag. reflexivity. }
  clear Hrun.
  destruct st2 as [called2 stored2 fn2 res2 queue2 hd2 cells2 clk2 np2 nm2 flag2 it2 task2 lg2].
  cbn [adsbygoogle promises clock log] in *.
  split.
  - intros -> showAdFn. unfold_legacy. rewrite Hq. reflexivity.
  - intros info Hpend.
    assert (Hlt : length cells < length cells2) by (eapply lookup_lt_Some; eauto).
    eexists.
    split; [unfold_legacy; rewrite Hq; destruct options; rewrite Hpend; reflexivity |].
    assert (Hset : LegacyMachine.settled
                     (mkState called2 stored2 fn2 res2 queue2 hd2
                        (<[length cells := Some info]> cells2) clk2 np2 nm2 flag2 it2 task2
                        ((clk2, EResolve (length cells) info) :: lg2))
                     (VAwaitTranslate (length cells))
                   = Some (Legacy.showAdHelper_result info)).
    { simpl. rewrite list_lookup_insert_eq by exact Hlt. reflexivity. }
    split; [exact Hset |].
    intros events' st4 Hrun'. exact (legacy_run_settled _ _ _ _ _ Hset Hrun').
Qed.

(** X13. In every state the earlier revision can reach, a request's
    promise stays pending under every event except the vendor's
    [adBreakDone] of that same request: overlapping calls of the show
    functions, rewarded ones included, each get the result of their own
    request. *)
Theorem X13_legacy_only_own_completion_settles
    (existing : option (list string)) (events : list Event) (st st' : State)
    (i : nat) (request : Command) (p : PromiseId) (e : Event)
    (c : Completion Value) :
  lrun events (googleAdPlacementPlugin existing) = Some st ->
  adsbygoogle st !! i = Some request ->
  done_of request = Some p ->
  promises st !! p = Some None ->
  (forall info, e <> VendorAdBreakDone i info) ->
  lstep e st = Some (c, st') ->
  promises st' !! p = Some None.
Proof.
  intros Hrun Hi Hdone Hp Hother H.
  destruct (legacy_reachable_inv _ _ _ Hrun)
    as (_ & _ & _ & _ & _ & _ & _ & _ & Hlt & Hnd).
  legacy_cases H; simpl in *; try exact Hp.
  all: try (apply pending_alloc_iff; exact Hp).
  all: apply pending_other_resolve; [| exact Hp].
  all: intros ->;
       match goal with
       | Hq : _ !! ?j = Some (_ ?q) |- _ =>
           assert (i = j) by
             (eapply done_index_unique;
                [exact Hnd | exact Hi | exact Hdone | exact Hq | reflexivity]);
           subst; eapply Hother; reflexivity
       end.
Qed.

(** X14. In every state the earlier revision can reach, the [beforeAd] and
    [afterAd] callbacks of a request throw "Plugin is not initialized" and
    change nothing while [initialize] has not been called; afterwards
    [beforeAd] calls [setNeedsMute(true)] and [afterAd] calls
    [setNeedsMute(false)], and that is all either does. *)
Theorem X14_legacy_mute_hooks
    (existing : option (list string)) (events : list Event) (st : State)
    (i : nat) (request : Command) :
  lrun events (googleAdPlacementPlugin existing) = Some st ->
  adsbygoogle st !! i = Some request ->
  is_ad_break request = true ->
  lstep (VendorBeforeAd i) st
  = Some (if initializeCalled st
          then (Normal VUndefined,
                set_log ((clock st, ESetNeedsMute true) :: log st)
                  (set_needsMute (Some true) st))
          else (Throw not_initialized, st))
  /\ lstep (VendorAfterAd i) st
     = Some (if initializeCalled st
             then (Normal VUndefined,
                   set_log ((clock st, ESetNeedsMute false) :: log st)
                     (set_needsMute (Some false) st))
             else (Throw not_initialized, st)).
Proof.
  intros Hrun Hi Hreq.
  destruct (legacy_reachable_inv _ _ _ Hrun)
    as (_ & _ & _ & _ & _ & _ & _ & Hctx & _).
  destruct st as [called stored fn res queue hd cells clk np nm flag it task lg].
  simpl in *.
  assert (Hcases : (called = true /\ exists ctx, stored = Some ctx)
                   \/ (called = false /\ stored = None)).
  { destruct called, stored as [ctx |]; eauto.
    - exfalso. apply (proj1 Hctx); reflexivity.
    - exfalso. assert (Hc : false = true) by (apply Hctx; discriminate). discriminate. }
  destruct request; try discriminate Hreq;
    destruct Hcases as [[-> [ctx ->]] | [-> ->]];
    split; unfold_legacy; rewrite Hi; reflexivity.
Qed.

End LegacyProperties.

(** * Further concrete runs *)

(** X2, at a concrete input: the completion of the reward request leaves
    the promise of the full-screen request pending. *)
Lemma X2_only_own_completion_settles_witness :
  exists st st',
    run demo_publisher None demo_two_requests (googleAdPlacementPlugin None) = Some st
    /\ adsbygoogle st !! 2 = Some (AdBreakPause 1)
    /\ promises st !! 1 = Some None
    /\ step demo_publisher None (VendorAdBreakDone 1 demo_viewed) st
       = Some (Normal VUndefined, st')
    /\ promises st' !! 1 = Some None.
Proof.
  assert (H : exists st st',
             run demo_publisher None demo_two_requests (googleAdPlacementPlugin None)
             = Some st
             /\ adsbygoogle st !! 2 = Some (AdBreakPause 1)
             /\ promises st !! 1 = Some None
             /\ step demo_publisher None (VendorAdBreakDone 1 demo_viewed) st
                = Some (Normal VUndefined, st')).
  { do 2 eexists. split; [vm_compute; reflexivity |].
    split; [vm_compute; reflexivity |]. split; vm_compute; reflexivity. }
  destruct H as (st & st' & Hrun & Hq & Hp & Hstep). exists st, st'.
  repeat (split; [assumption |]).
  apply (X2_only_own_completion_settles demo_publisher None None demo_two_requests
           st st' 2 (AdBreakPause 1) 1 (VendorAdBreakDone 1 demo_viewed)
           (Normal VUndefined) Hrun Hq eq_refl Hp).
  - intros info Heq. discriminate Heq.
  - exact Hstep.
Defined.

(** X3, at a concrete input: the trigger of the scenario invoked again. *)
Lemma X3_second_trigger_orphans_first_witness :
  exists st st1,
    run demo_publisher None demo_triggered (googleAdPlacementPlugin None) = Some st
    /\ showRewardedAdFn st = Some 7
    /\ resolveRewardedAdFn st = Some 1
    /\ step demo_publisher None HostShowRewardedAd st
       = Some (Normal (VAwaitTranslate (length (promises st))), st1)
    /\ forall events' st2,
         run demo_publisher None events' st1 = Some st2 ->
         settled st2 (VAwaitTranslate 1) = None.
Proof.
  assert (H : exists st,
             run demo_publisher None demo_triggered (googleAdPlacementPlugin None)
             = Some st
             /\ showRewardedAdFn st = Some 7
             /\ resolveRewardedAdFn st = Some 1).
  { eexists. split; [vm_compute; reflexivity |]. split; vm_compute; reflexivity. }
  destruct H as (st & Hrun & Hfn & Hres). exists st.
  destruct (X3_second_trigger_orphans_first demo_publisher None None demo_triggered
              st 7 1 Hrun Hfn Hres) as (st1 & Hstep & _ & _ & _ & Hnever).
  exists st1. repeat (split; [assumption |]). exact Hnever.
Defined.

(** X4, at a concrete input: the hooks of the reward request of the
    scenario. *)
Lemma X4_pause_mute_bracket_witness :
  exists st st1 st2,
    run demo_publisher None demo_offer (googleAdPlacementPlugin None) = Some st
    /\ initializeCalled st = true
    /\ adsbygoogle st !! 1 = Some (AdBreakReward 0)
    /\ step demo_publisher None (VendorBeforeAd 1) st = Some (Normal VUndefined, st1)
    /\ step demo_publisher None (VendorAfterAd 1) st1 = Some (Normal VUndefined, st2)
    /\ st2 = set_log (log st2)
               (set_needsMute (Some false) (set_needsPause (Some false) st)).
Proof.
  assert (H : exists st,
             run demo_publisher None demo_offer (googleAdPlacementPlugin None) = Some st
             /\ initializeCalled st = true
             /\ adsbygoogle st !! 1 = Some (AdBreakReward 0)).
  { eexists. split; [vm_compute; reflexivity |]. split; vm_compute; reflexivity. }
  destruct H as (st & Hrun & Hcalled & Hq). exists st.
  destruct (X4_pause_mute_bracket demo_publisher None None demo_offer st 1
              (AdBreakReward 0) Hrun Hcalled Hq eq_refl)
    as (st1 & st2 & H1 & _ & _ & _ & H2 & _ & Heq).
  exists st1, st2. repeat (split; [assumption |]). exact Heq.
Defined.

(** X5, at a concrete input. *)
Lemma X5_pause_and_mute_agree_witness :
  exists st,
    run demo_publisher None (demo_offer ++ [VendorBeforeAd 1])
      (googleAdPlacementPlugin None) = Some st
    /\ needsPause st = needsMute st.
Proof.
  assert (H : exists st,
             run demo_publisher None (demo_offer ++ [VendorBeforeAd 1])
               (googleAdPlacementPlugin None) = Some st)
    by (eexists; vm_compute; reflexivity).
  destruct H as [st Hrun]. exists st. split; [exact Hrun |].
  exact (proj1 (X5_pause_and_mute_agree demo_publisher None None
                  (demo_offer ++ [VendorBeforeAd 1]) st Hrun)).
Defined.

(** X6, at a concrete input, with a frequency hint. *)
Lemma X6_one_script_element_witness :
  exists st,
    run demo_publisher (Some "1x60s") demo_offer (googleAdPlacementPlugin None) = Some st
    /\ match initializeContext st with
       | None => initializeCalled st = false /\ head st = []
       | Some ctx =>
           initializeCalled st = true
           /\ exists tag,
               head st = [tag]
               /\ tag_adClient tag = demo_publisher
               /\ tag_src tag
                  = ("https://pagead2.googlesyndication.com/pagead/js/adsbygoogle.js?client="
                     ++ demo_publisher)%string
               /\ tag_async tag = true
               /\ tag_crossOrigin tag = "anonymous"
               /\ (tag_adbreakTest tag = Some "on" <-> useTestAds ctx = true)
               /\ (tag_adbreakTest tag = None <-> useTestAds ctx = false)
               /\ (forall hint,
                     tag_adFrequencyHint tag = Some hint <->
                     Some "1x60s" = Some hint /\ hint <> "")
       end.
Proof.
  assert (H : exists st,
             run demo_publisher (Some "1x60s") demo_offer (googleAdPlacementPlugin None)
             = Some st)
    by (eexists; vm_compute; reflexivity).
  destruct H as [st Hrun]. exists st. split; [exact Hrun |].
  exact (X6_one_script_element demo_publisher (Some "1x60s") None demo_offer st Hrun).
Defined.


(** X8, at a concrete input: the script loads after [initialize]. *)
Lemma X8_script_load_starts_loop_witness :
  exists st st',
    run demo_publisher None [HostInitialize demo_ctx] (googleAdPlacementPlugin None)
    = Some st
    /\ initTask st = InitAwaitLoad
    /\ step demo_publisher None ScriptLoad st = Some (Normal VUndefined, st')
    /\ loopTask st' = LoopAwait (length (promises st)) (clock st).
Proof.
  assert (H : exists st,
             run demo_publisher None [HostInitialize demo_ctx]
               (googleAdPlacementPlugin None) = Some st
             /\ initTask st = InitAwaitLoad).
  { eexists. split; vm_compute; reflexivity. }
  destruct H as (st & Hrun & Hinit). exists st.
  destruct (X8_script_load_starts_loop demo_publisher None None
              [HostInitialize demo_ctx] st Hrun Hinit)
    as (st' & Hstep & _ & _ & _ & _ & Hloop & _).
  exists st'. repeat (split; [assumption |]). exact Hloop.
Defined.

(** X9, at a concrete input: the script fails, then the vendor script is
    never there and the host asks for a rewarded ad. *)
Lemma X9_script_error_disables_rewarded_ads_witness :
  exists st st',
    run demo_publisher None demo_script_error (googleAdPlacementPlugin None) = Some st
    /\ initTask st = InitRejected
    /\ run demo_publisher None [ClockAdvance 5000; HostShowRewardedAd] st = Some st'
    /\ step demo_publisher None HostShowRewardedAd st'
       = Some (Normal (VResult no_ad_available), st').
Proof.
  assert (H : exists st st',
             run demo_publisher None demo_script_error (googleAdPlacementPlugin None)
             = Some st
             /\ initTask st = InitRejected
             /\ run demo_publisher None [ClockAdvance 5000; HostShowRewardedAd] st
                = Some st').
  { do 2 eexists. split; [vm_compute; reflexivity |].
    split; vm_compute; reflexivity. }
  destruct H as (st & st' & Hrun & Hinit & Hrun'). exists st, st'.
  repeat (split; [assumption |]).
  apply (X9_script_error_disables_rewarded_ads demo_publisher None None
           demo_script_error st Hrun Hinit [ClockAdvance 5000; HostShowRewardedAd] st' Hrun').
Defined.

(** X10, at a concrete input: the loop of the scenario, with an offer
    open. *)
Lemma X10_loop_goes_on_witness :
  exists st events' st' next,
    run demo_publisher None demo_offer (googleAdPlacementPlugin None) = Some st
    /\ loopTask st <> LoopNotStarted
    /\ run demo_publisher None events' st = Some st'
    /\ adsbygoogle st' = adsbygoogle st ++ [AdBreakReward next].
Proof.
  assert (H : exists st,
             run demo_publisher None demo_offer (googleAdPlacementPlugin None) = Some st
             /\ loopTask st = LoopAwait 0 0).
  { eexists. split; vm_compute; reflexivity. }
  destruct H as (st & Hrun & Htask). exists st.
  assert (Hstarted : loopTask st <> LoopNotStarted) by (rewrite Htask; discriminate).
  destruct (X10_loop_goes_on demo_publisher None None demo_offer st demo_viewed
              Hrun Hstarted)
    as (_ & _ & (events' & st' & next & _ & Hrun' & Hq & _)).
  exists events', st', next. repeat (split; [assumption |]). exact Hq.
Defined.

(** X11, at a concrete input. *)
Lemma X11_legacy_mutes_only_witness :
  exists st,
    LegacyMachine.run demo_publisher None demo_legacy (googleAdPlacementPlugin None)
    = Some st
    /\ needsMute st = Some true
    /\ needsPause st = None
    /\ canShowRewardedAd st = None.
Proof.
  assert (H : exists st,
             LegacyMachine.run demo_publisher None demo_legacy
               (googleAdPlacementPlugin None) = Some st
             /\ needsMute st = Some true).
  { eexists. split; vm_compute; reflexivity. }
  destruct H as (st & Hrun & Hmute). exists st.
  destruct (X11_legacy_mutes_only demo_publisher None None demo_legacy st Hrun)
    as (Hp & Hf & _).
  repeat (split; [assumption |]). exact Hf.
Defined.

(** X13, at a concrete input: the end of the first of two overlapping
    rewarded calls leaves the second pending. *)
Lemma X13_legacy_only_own_completion_settles_witness :
  exists st st',
    LegacyMachine.run demo_publisher None demo_legacy (googleAdPlacementPlugin None)
    = Some st
    /\ adsbygoogle st !! 2 = Some (AdBreakReward 1)
    /\ promises st !! 1 = Some None
    /\ LegacyMachine.step demo_publisher None (VendorAdBreakDone 1 demo_viewed) st
       = Some (Normal VUndefined, st')
    /\ promises st' !! 0 = Some (Some demo_viewed)
    /\ promises st' !! 1 = Some None.
Proof.
  assert (H : exists st st',
             LegacyMachine.run demo_publisher None demo_legacy
               (googleAdPlacementPlugin None) = Some st
             /\ adsbygoogle st !! 2 = Some (AdBreakReward 1)
             /\ promises st !! 1 = Some None
             /\ LegacyMachine.step demo_publisher None (VendorAdBreakDone 1 demo_viewed) st
                = Some (Normal VUndefined, st')
             /\ promises st' !! 0 = Some (Some demo_viewed)).
  { do 2 eexists. split; [vm_compute; reflexivity |].
    split; [vm_compute; reflexivity |]. split; [vm_compute; reflexivity |].
    split; vm_compute; reflexivity. }
  destruct H as (st & st' & Hrun & Hq & Hp & Hstep & Hfirst). exists st, st'.
  repeat (split; [assumption |]).
  apply (X13_legacy_only_own_completion_settles demo_publisher None None demo_legacy
           st st' 2 (AdBreakReward 1) 1 (VendorAdBreakDone 1 demo_viewed)
           (Normal VUndefined) Hrun Hq eq_refl Hp).
  - intros info Heq. discriminate Heq.
  - exact Hstep.
Defined.

(** X14, at a concrete input: the hooks of the first reward request. *)
Lemma X14_legacy_mute_hooks_witness :
  exists st,
    LegacyMachine.run demo_publisher None demo_legacy (googleAdPlacementPlugin None)
    = Some st
    /\ adsbygoogle st !! 1 = Some (AdBreakReward 0)
    /\ initializeCalled st = true
    /\ LegacyMachine.step demo_publisher None (VendorAfterAd 1) st
       = Some (Normal VUndefined,
               set_log ((clock st, ESetNeedsMute false) :: log st)
                 (set_needsMute (Some false) st)).
Proof.
  assert (H : exists st,
             LegacyMachine.run demo_publisher None demo_legacy
               (googleAdPlacementPlugin None) = Some st
             /\ adsbygoogle st !! 1 = Some (AdBreakReward 0)
             /\ initializeCalled st = true).
  { eexists. split; [vm_compute; reflexivity |]. split; vm_compute; reflexivity. }
  destruct H as (st & Hrun & Hq & Hcalled). exists st.
  repeat (split; [assumption |]).
  pose proof (proj2 (X14_legacy_mute_hooks demo_publisher None None demo_legacy st 1
                       (AdBreakReward 0) Hrun Hq eq_refl)) as Hafter.
  rewrite Hcalled in Hafter. exact Hafter.
Defined.
